(** * astrbot_plugin_batchrecall: a shallow embedding of [main.py]

    The plugin has two parts.  The recall scheduler ([intercept_and_recall],
    [_recall_msg], [_remove_task], [terminate]) keeps one background task per
    sent message in the set [recall_tasks]; it is embedded as a transition
    system over the asyncio event loop.  The batch recall command
    ([batch_recall_command]) parses a count, fetches the group history,
    selects a window of messages and deletes them one by one; it is embedded
    as a function that threads the state of the protocol client and records
    every call and reply in a trace. *)

From stdpp Require Import base numbers option list sorting gmap relations.

Local Open Scope Z_scope.

#[local] Set Warnings "-clear-no-such-hyp".

(** ** Python values *)

(** A Python [str] is a sequence of Unicode code points. *)
Abbreviation pystr := (list N).

(** Truthiness of the values the plugin tests with [if x] / [if not x]. *)
Definition str_truthy (s : pystr) : bool :=
  match s with [] => false | _ :: _ => true end.

Definition int_truthy (z : Z) : bool := negb (z =? 0).

Definition list_truthy {A} (l : list A) : bool :=
  match l with [] => false | _ :: _ => true end.

(** [None] is falsy; a present value has the truthiness of its type. *)
Definition opt_truthy {A} (t : A → bool) (o : option A) : bool :=
  match o with Some a => t a | None => false end.

(** [l[:count]] for a Python int [count]: a negative bound counts from the
    end of the list. *)
Definition py_slice_to {A} (count : Z) (l : list A) : list A :=
  if 0 <=? count then take (Z.to_nat count) l
  else take (length l - Z.to_nat (- count))%nat l.

(** Code points of the ASCII range, used by the concrete instances below. *)
Definition ascii_is_decimal (c : N) : bool := ((48 <=? c) && (c <=? 57))%N.

Definition ascii_isspace (c : N) : bool :=
  (((9 <=? c) && (c <=? 13)) || ((28 <=? c) && (c <=? 32)))%N.

Definition ascii_digits_value (s : pystr) : Z :=
  foldl (λ acc c, 10 * acc + (Z.of_N c - 48)) 0 s.

(** [int(s)] restricted to plain ASCII digit strings; [None] stands for
    [ValueError]. *)
Definition ascii_int (s : pystr) : option Z :=
  if list_truthy s && forallb ascii_is_decimal s
  then Some (ascii_digits_value s) else None.

(** ** Configuration ([self.conf]) *)

(** [recall_time] is read with [self.conf["recall_time"]]; the other keys
    are read with [self.conf.get(key, default)], so they may be absent. *)
Record config := Config {
  recall_time : Z;
  enable_private_recall : option bool;
  enable_group_recall : option bool;
  group_whitelist : option (list pystr);
  batch_max_count : option Z;
}.

(** ** Events *)

(** Message segments of [event.get_messages()]; [At.qq] is kept as the
    string [str(segment.qq)]. *)
Inductive segment :=
  | At (qq : pystr)
  | Plain (text : pystr)
  | OtherSegment.

Record event := Event {
  is_aiocqhttp : bool;              (* isinstance(event, AiocqhttpMessageEvent) *)
  get_group_id : option pystr;      (* falsy (None or empty) for a private chat *)
  get_sender_id : pystr;
  get_messages : list segment;
  get_result : option (list segment) (* event.get_result().chain, None without a result *)
}.

Definition is_group (ev : event) : bool := opt_truthy str_truthy (get_group_id ev).

(** [str(group_id)] for the id of a group event. *)
Definition group_id_str (ev : event) : pystr := default [] (get_group_id ev).

(** ** [_should_enable_recall] *)

Definition _should_enable_recall (conf : config) (ev : event) : bool :=
  if negb (is_group ev) then default true (enable_private_recall conf)
  else
    let group_id := group_id_str ev in
    let group_whitelist := default [] (group_whitelist conf) in
    if list_truthy group_whitelist && negb (bool_decide (group_id ∈ group_whitelist))
    then false
    else default true (enable_group_recall conf).

(** ** History entries *)

(** One entry of the [messages] list returned by [get_group_msg_history].
    [sender_user_id] is [str(msg["sender"]["user_id"])] when both keys are
    present; [message_id] and [time] are the optional integer fields. *)
Record message := Message {
  message_id : option Z;
  sender_user_id : option pystr;
  time : option Z;
}.

#[global] Instance message_eq_dec : EqDecision message.
Proof. solve_decision. Defined.

(** [str(msg.get("sender", {}).get("user_id", ""))] *)
Definition sender_str (msg : message) : pystr := default [] (sender_user_id msg).

(** The sort key [item.get("time", 0)]. *)
Definition timestamp (msg : message) : Z := default 0 (time msg).

(** ** Selection of the batch window (lines 224-258) *)

(** [if count > max_count: count = max_count] *)
Definition clamp_count (count max_count : Z) : Z :=
  if count >? max_count then max_count else count.

(** The list comprehension guarded by [if target_qq:]. *)
Definition filter_history (target_qq : option pystr) (history : list message)
  : list message :=
  if opt_truthy str_truthy target_qq
  then filter (λ msg, sender_str msg = default [] target_qq) history
  else history.

(** [list.sort(key=..., reverse=True)] is a stable sort into descending key
    order.  It is rendered as a stable insertion sort: an element is put in
    front of the first element whose key is not larger, so among equal keys
    the one that came first stays first. *)
Fixpoint insert_desc (x : message) (l : list message) : list message :=
  match l with
  | [] => [x]
  | y :: l' =>
      if timestamp y <=? timestamp x then x :: y :: l'
      else y :: insert_desc x l'
  end.

Definition sort_by_time_desc (l : list message) : list message :=
  foldr insert_desc [] l.

(** [to_recall = filtered_messages[:count]] after the clamp, filter and sort. *)
Definition select_to_recall (history : list message) (target_qq : option pystr)
    (count max_count : Z) : list message :=
  py_slice_to (clamp_count count max_count)
    (sort_by_time_desc (filter_history target_qq history)).

(** ** Outcomes of the protocol client's calls *)

(** Exceptions of class [Exception].  [ActionFailed] carries the retcode of
    the failed result it was raised with, [None] when the result has no such
    key: the attribute [retcode] of aiocqhttp's [ActionFailed] reads
    [self.result["retcode"]], so reading it then raises [KeyError]. *)
Inductive exn :=
  | ActionFailed (retcode : option Z)
  | KeyError
  | OtherException.

Inductive delete_result :=
  | DeleteOk
  | DeleteRaised (e : exn).

(** What [call_action("get_group_msg_history", ...)] gives back: an
    exception, a value that is no dict, or a dict with an optional
    [messages] list. *)
Inductive history_result :=
  | HistoryRaised (e : exn)
  | HistoryNotDict
  | HistoryDict (messages : option (list message)).

(** Line 235: [result.get("messages", []) if isinstance(result, dict) else []] *)
Definition history_messages_of (res : history_result) : list message :=
  match res with
  | HistoryDict messages => default [] messages
  | _ => []
  end.

(** ** Observable effects of [batch_recall_command] *)

(** The texts yielded with [event.plain_result]. *)
Inductive reply :=
  | UnsupportedPlatform          (* 当前平台不支持批量撤回 *)
  | GroupChatOnly                (* 当前仅支持群聊批量撤回 *)
  | NeedCount                    (* 请在指令后填写需要撤回的数量 *)
  | CountMustBePositive          (* 撤回数量必须为正整数 *)
  | HistoryFetchFailed           (* 获取消息历史失败 *)
  | NoTargetUserMessages         (* 未找到可撤回的目标用户消息 *)
  | NoBotMessages                (* 未找到可撤回的机器人消息 *)
  | RecalledOfUser (success : nat)   (* 已尝试撤回 {success} 条该用户的最近消息 *)
  | RecalledOfGroup (success : nat). (* 已尝试撤回最近 {success} 条群消息 *)

(** The replies that refuse the command before anything is fetched. *)
Definition rejections : list reply :=
  [UnsupportedPlatform; GroupChatOnly; NeedCount; CountMustBePositive].

Inductive effect :=
  | Reply (r : reply)
  | CallHistory (group_id count : Z) (res : history_result)
  | CallDelete (message_id : Z) (res : delete_result)
  | LogHistoryError
  | LogDeleteError (message_id : Z)
  | UncaughtValueError.

Definition is_client_call (e : effect) : bool :=
  match e with
  | CallHistory _ _ _ | CallDelete _ _ => true
  | _ => false
  end.

(** The delete calls of a trace, with their outcomes, in order. *)
Definition delete_calls (tr : list effect) : list (Z * delete_result) :=
  omap (λ e, match e with CallDelete i r => Some (i, r) | _ => None end) tr.

Definition delete_succeeded (c : Z * delete_result) : bool :=
  match c.2 with DeleteOk => true | DeleteRaised _ => false end.

(** How many delete calls of a trace succeeded. *)
Definition succeeded_count (tr : list effect) : nat :=
  length (filter (λ c, delete_succeeded c = true) (delete_calls tr)).

(** The final reply carries the tally [n]. *)
Definition reports (tr : list effect) (n : nat) : Prop :=
  Reply (RecalledOfUser n) ∈ tr ∨ Reply (RecalledOfGroup n) ∈ tr.

(** [msg.get("message_id")] when it is truthy. *)
Definition deletable_id (msg : message) : option Z :=
  match message_id msg with
  | Some i => if int_truthy i then Some i else None
  | None => None
  end.

(** The command keyword, 批量撤回. *)
Definition keyword : pystr := [25209; 37327; 25764; 22238]%N.

(** The string [all] of an at-everyone segment. *)
Definition at_all : pystr := [97; 108; 108]%N.

(** The first [At] segment that is not at-everyone (lines 199-203). *)
Fixpoint find_target (messages : list segment) : option pystr :=
  match messages with
  | [] => None
  | At qq :: rest => if bool_decide (qq ≠ at_all) then Some qq else find_target rest
  | _ :: rest => find_target rest
  end.

(** [plain_parts] joined (lines 205-209, before the strip). *)
Fixpoint join_plain (messages : list segment) : pystr :=
  match messages with
  | [] => []
  | Plain text :: rest => text ++ join_plain rest
  | _ :: rest => join_plain rest
  end.

(** [tail.split(kw, 1)[1]] when [kw in tail]: what follows the leftmost
    occurrence of [kw]; [None] when there is none. *)
Fixpoint after_first (kw s : pystr) : option pystr :=
  if bool_decide (take (length kw) s = kw) then Some (drop (length kw) s)
  else match s with
       | [] => None
       | _ :: s' => after_first kw s'
       end.

(** ** The recall task: [_recall_msg] as a resumable coroutine *)


Inductive log_entry :=
  | WaitingToRecall (message_id : Z)        (* info: 等待 .. 秒后撤回消息 *)
  | Recalled (message_id : Z)               (* info: 已自动撤回消息 *)
  | AlreadyGone (message_id : Z)            (* info: 撤回消息可能已超时或被撤回 *)
  | RecallFailed (e : exn)                  (* error: 撤回消息失败 *)
  | Intercepted                             (* info: 拦截到机器人消息 *)
  | EmptyChain                              (* warning: 消息链为空 *)
  | NothingToSend                           (* warning: 待发送消息为空 *)
  | SendFailed                              (* error: 发送消息失败 *)
  | NoMessageId                             (* error: 无法获取消息ID *)
  | SentWithId (message_id : Z)             (* info: 发送成功 *)
  | RecallScheduled                         (* info: 已安排消息 .. 撤回 *)
  | InterceptFailed.                        (* error: 消息拦截处理失败 *)


(** Where the coroutine stands: not yet started, suspended in one of its two
    awaits, or finished: returned, left by a [CancelledError] (which is no
    [Exception] and so passes both [except] clauses), or left by an
    exception that no [except] clause caught. *)
Inductive coro :=
  | NotStarted
  | Sleeping                  (* await asyncio.sleep(recall_time) *)
  | Deleting                  (* await client.delete_msg(message_id=message_id) *)
  | Returned
  | Cancelled
  | Failed (e : exn).

(** What the event loop resumes a task with.  The first step runs the
    coroutine up to its call of [asyncio.sleep(recall_time)], which either
    suspends it or raises (a delay the loop cannot add to its clock). *)
Inductive wakeup :=
  | Resume                          (* first step, or the sleep is over *)
  | SleepRaised (e : exn)           (* first step, asyncio.sleep raises *)
  | DeleteDone (res : delete_result) (* the delete call has an outcome *)
  | Cancel.                         (* CancelledError thrown at the await *)

Definition is_cancel (w : wakeup) : bool :=
  match w with Cancel => true | _ => false end.

(** [getattr(e, "retcode", None) == 1200] under [except ActionFailed]. *)
Definition is_benign (e : exn) : bool :=
  match e with
  | ActionFailed (Some 1200) => true
  | _ => false
  end.

(** The one outcome of the delete call on which line 45 itself raises: an
    [ActionFailed] whose result has no retcode.  The default of [getattr]
    only covers [AttributeError]. *)
Definition retcode_missing (res : delete_result) : bool :=
  match res with
  | DeleteRaised (ActionFailed None) => true
  | _ => false
  end.

(** One step of [_recall_msg(client, message_id)]: the next position and the
    lines logged on the way.  [None]: the coroutine cannot be resumed this
    way from this position.  The sleep of line 39 is outside the [try], so
    what it raises leaves the coroutine; so does the [KeyError] of line 45,
    raised inside an [except] clause, which the clause of line 51 does not
    cover. *)
Definition _recall_msg (message_id : Z) (pos : coro) (w : wakeup)
  : option (coro * list log_entry) :=
  match pos, w with
  | NotStarted, Resume => Some (Sleeping, [WaitingToRecall message_id])
  | NotStarted, SleepRaised e => Some (Failed e, [WaitingToRecall message_id])
  | Sleeping, Resume =>
      if int_truthy message_id && negb (message_id =? 0)
      then Some (Deleting, [])
      else Some (Returned, [])
  | Deleting, DeleteDone DeleteOk => Some (Returned, [Recalled message_id])
  | Deleting, DeleteDone (DeleteRaised (ActionFailed None)) =>
      Some (Failed KeyError, [])
  | Deleting, DeleteDone (DeleteRaised e) =>
      if is_benign e then Some (Returned, [AlreadyGone message_id])
      else Some (Returned, [RecallFailed e])
  | (NotStarted | Sleeping | Deleting), Cancel => Some (Cancelled, [])
  | _, _ => None
  end.


(** How the coroutine ends once its delete call has the outcome [res]. *)
Definition delete_end (res : delete_result) : coro :=
  if retcode_missing res then Failed KeyError else Returned.

(** The wake-ups of a recall that nothing disturbs, from the position [pos]
    on: the call of the sleep suspends the coroutine, the sleep elapses, and
    the delete call comes back with [res]; no cancellation. *)
Definition undisturbed (pos : coro) (res : delete_result) : list wakeup :=
  match pos with
  | NotStarted => [Resume; Resume; DeleteDone res]
  | Sleeping => [Resume; DeleteDone res]
  | Deleting => [DeleteDone res]
  | _ => []
  end.

(** ** The event loop and the task registry *)

(** An [asyncio.Task] wrapping [_recall_msg]: where its coroutine stands,
    whether [cancel()] was requested and not yet delivered, and whether
    [_remove_task] was added as its done-callback. *)
Record task := Task {
  task_message_id : Z;
  task_coro : coro;
  must_cancel : bool;
  remove_on_done : bool;
}.

(** [task.done()] *)
Definition done (tk : task) : bool :=
  match task_coro tk with
  | Returned | Cancelled | Failed _ => true
  | _ => false
  end.

(** The state the scheduler's code can see or change.  [tasks] holds every
    task created so far, by handle; [recall_tasks] is [self.recall_tasks];
    [callbacks] are the [_remove_task] calls the loop has queued with
    [call_soon] when a task finished and has not run yet; [gathering] is the
    set of tasks a suspended [terminate] waits for. *)
Record loop := Loop {
  tasks : gmap nat task;
  recall_tasks : gset nat;
  callbacks : gset nat;
  gathering : option (gset nat);
}.

Definition initial : loop := Loop ∅ ∅ ∅ None.

Definition is_done (s : loop) (t : nat) : bool :=
  match tasks s !! t with Some tk => done tk | None => false end.

(** [self.recall_tasks.discard(task)], run by the loop as a done-callback. *)
Definition _remove_task (t : nat) (s : loop) : loop :=
  Loop (tasks s) (recall_tasks s ∖ {[t]}) (callbacks s ∖ {[t]}) (gathering s).

(** Lines 124-126 run without an await in between, so they are one step of
    the loop. *)
Definition new_handle (s : loop) : nat := fresh (dom (tasks s)).

(** [asyncio.create_task(self._recall_msg(event.bot, int(message_id)))]: a
    new task; the first step of its coroutine is only queued. *)
Definition create_task (message_id : Z) (s : loop) : nat * loop :=
  let t := new_handle s in
  (t, Loop (<[t := Task message_id NotStarted false false]> (tasks s))
        (recall_tasks s) (callbacks s) (gathering s)).

(** [task.add_done_callback(self._remove_task)]; on a task that is already
    done the callback is queued at once. *)
Definition add_done_callback (t : nat) (s : loop) : loop :=
  Loop (alter (λ tk, Task (task_message_id tk) (task_coro tk) (must_cancel tk) true)
          t (tasks s))
       (recall_tasks s)
       (if is_done s t then {[t]} ∪ callbacks s else callbacks s)
       (gathering s).

(** [self.recall_tasks.add(task)] *)
Definition recall_tasks_add (t : nat) (s : loop) : loop :=
  Loop (tasks s) ({[t]} ∪ recall_tasks s) (callbacks s) (gathering s).

Definition schedule_recall (message_id : Z) (s : loop) : loop :=
  let '(t, s1) := create_task message_id s in
  recall_tasks_add t (add_done_callback t s1).

(** The outcome of [event.bot.call_action("send_group_msg" / "send_private_msg")]. *)
Inductive send_result :=
  | SendRaised
  | SendNotDict
  | SendDict (message_id : option Z).

(** Lines 115-117: [message_id = send_result.get("message_id")] for a dict. *)
Definition sent_message_id (r : send_result) : option Z :=
  match r with SendDict m => m | _ => None end.

(** Lines 115-127: what the handler does with the result of a send. *)
Definition schedule_from_send (r : send_result) (s : loop) : loop * list log_entry :=
  match sent_message_id r with
  | Some i =>
      if int_truthy i
      then (schedule_recall i s, [SentWithId i; RecallScheduled])
      else (s, [NoMessageId])
  | None => (s, [NoMessageId])
  end.

(** What the intercept handler does besides logging. *)
Inductive intercept_call :=
  | ClearChain
  | SendGroupMsg (group_id : Z)
  | SendPrivateMsg (user_id : Z).

(** The two awaited calls of the handler, each made at most once:
    [_parse_onebot_json] ([None] when it raises) and the send. *)
Record intercept_env := InterceptEnv {
  parsed_messages : option (list segment);
  send_outcome : send_result;
}.

(** The callbacks the event loop can run for the plugin: the tail of the
    intercept handler, a step of a recall task, a queued [_remove_task], and
    the two halves of [terminate] around its await. *)
Inductive label :=
  | Intercept (conf : config) (ev : event) (env : intercept_env)
  | Wake (t : nat) (w : wakeup)
  | DoneCallback (t : nat)
  | TerminateCancel
  | TerminateClear.

(** ** Sample inputs *)

(** The history of the specification's scenarios: entries 1 and 3 from
    sender A at times 10 and 30, entry 2 from sender B at time 20. *)
Definition sender_A : pystr := [65]%N.
Definition sender_B : pystr := [66]%N.
Definition entry_1 : message := Message (Some 1) (Some sender_A) (Some 10).
Definition entry_2 : message := Message (Some 2) (Some sender_B) (Some 20).
Definition entry_3 : message := Message (Some 3) (Some sender_A) (Some 30).
Definition sample_history : list message := [entry_1; entry_2; entry_3].

(** An entry whose [message_id] key is absent. *)
Definition entry_without_id : message := Message None (Some sender_B) (Some 40).

(** A configuration with every optional key absent, and one that lists
    group 456 only. *)
Definition sample_conf : config := Config 60 None None None None.
Definition group_123 : pystr := [49; 50; 51]%N.
Definition group_456 : pystr := [52; 53; 54]%N.
Definition listed_conf : config := Config 60 None None (Some [group_456]) None.

(** The command text 批量撤回 followed by a blank and one character, sent
    in group 123 on the supported platform. *)
Definition sample_command (c : N) : event :=
  Event true (Some group_123) [55]%N [Plain (keyword ++ [32; c]%N)] None.

(** A reply of the bot in group 123 that is about to be sent. *)
Definition sample_reply : event :=
  Event true (Some group_123) [55]%N [] (Some [Plain [104; 105]%N]).

Definition sent_with (message_id : option Z) : intercept_env :=
  InterceptEnv (Some [Plain [104; 105]%N]) (SendDict message_id).

(** A client that records the ids it is asked to delete, returns
    [sample_history] for every fetch, and fails to delete message 2. *)
Definition sample_get_history (group_id count : Z) (w : list Z)
  : history_result * list Z :=
  (HistoryDict (Some sample_history), w).

Definition sample_delete_msg (i : Z) (w : list Z) : delete_result * list Z :=
  (if i =? 2 then DeleteRaised (ActionFailed (Some 1200)) else DeleteOk, w ++ [i]).

(** A sent message 42 whose task has finished while its callback is still
    queued, and the steps that lead there. *)
Definition finished_steps : list label :=
  [Intercept sample_conf sample_reply (sent_with (Some 42));
   Wake 0 Resume; Wake 0 Resume; Wake 0 (DeleteDone DeleteOk)].

Definition finished_state : loop :=
  Loop {[0%nat := Task 42 Returned false true]} {[0%nat]} {[0%nat]} None.

(** Message 43 is sent while [terminate] waits for the task of message 42:
    its task is created during the wait and [clear()] then drops its handle. *)
Definition dropped_steps : list label :=
  [Intercept sample_conf sample_reply (sent_with (Some 42));
   TerminateCancel;
   Intercept sample_conf sample_reply (sent_with (Some 43));
   Wake 0 Cancel; DoneCallback 0; TerminateClear].

Definition dropped_state : loop :=
  Loop {[0%nat := Task 42 Cancelled false true; 1%nat := Task 43 NotStarted false true]}
       ∅ ∅ None.

(** Two sent messages, the first task asleep, the second not yet started. *)
Definition pending_steps : list label :=
  [Intercept sample_conf sample_reply (sent_with (Some 42));
   Intercept sample_conf sample_reply (sent_with (Some 43));
   Wake 0 Resume].

Definition pending_state : loop :=
  Loop {[0%nat := Task 42 Sleeping false true; 1%nat := Task 43 NotStarted false true]}
       {[0%nat; 1%nat]} ∅ None.

(** [terminate] has cancelled the two pending tasks and waits for them. *)
Definition draining_steps : list label := pending_steps ++ [TerminateCancel].

Definition draining_state : loop :=
  Loop {[0%nat := Task 42 Sleeping true true; 1%nat := Task 43 NotStarted true true]}
       {[0%nat; 1%nat]} ∅ (Some {[0%nat; 1%nat]}).

(** The first task of [pending_state] has been resumed from its sleep. *)
Definition deleting_state : loop :=
  Loop {[0%nat := Task 42 Deleting false true; 1%nat := Task 43 NotStarted false true]}
       {[0%nat; 1%nat]} ∅ None.

(** A command with white space around its text. *)
Definition padded_command : event :=
  Event true (Some group_123) [55]%N
    [Plain ([32] ++ keyword ++ [32; 53; 32])%N] None.





(** [int] with the interpreter's default limit on the conversion of a
    string: a string of more than 4300 digits raises [ValueError]. *)
Definition int_max_str_digits : nat := 4300.

Definition int_with_digit_limit (s : pystr) : option Z :=
  if (int_max_str_digits <? length s)%nat then None else ascii_int s.

(** The command with a count of 4301 digits. *)
Definition oversized_digits : pystr := replicate 4301 49%N.

Definition oversized_command : event :=
  Event true (Some group_123) [55]%N
    [Plain (keyword ++ [32]%N ++ oversized_digits)] None.

(** An entry with its [message_id] field rewritten; sender and time are kept. *)
Definition with_message_id (f : message → option Z) (msg : message) : message :=
  Message (f msg) (sender_user_id msg) (time msg).

(** ** The selection as the specification words it *)

(** Step 1: the requested count clamped to at most [max_count]. *)
Definition spec_clamp (requested_count max_count : Z) : Z :=
  Z.min requested_count max_count.

(** The target sender the command was given: the source tests [if target_qq:],
    so an absent or empty id string is no target. *)
Definition target_sender (target_qq : option pystr) : option pystr :=
  match target_qq with
  | Some (c :: q) => Some (c :: q)
  | _ => None
  end.

(** Step 2: exactly the entries of the target sender when one is given, all
    entries otherwise. *)
Definition spec_filter (target : option pystr) (history : list message)
  : list message :=
  match target with
  | Some sender => filter (λ msg, sender_str msg = sender) history
  | None => history
  end.

(** Step 3: [sorted] is [l] sorted by timestamp descending, ties keeping the
    order they have in [l]: it is in descending order, and for every
    timestamp the entries carrying it are the same, in the same order. *)
Definition newer_first (a b : message) : Prop := timestamp b ≤ timestamp a.

Definition at_time (k : Z) (l : list message) : list message :=
  filter (λ msg, timestamp msg = k) l.

Definition spec_sorted (l sorted : list message) : Prop :=
  StronglySorted newer_first sorted ∧ ∀ k, at_time k sorted = at_time k l.

(** The replies and the history fetches of a trace, in order. *)
Definition replies (tr : list effect) : list reply :=
  omap (λ e, match e with Reply r => Some r | _ => None end) tr.

Definition history_calls (tr : list effect) : list (Z * Z * history_result) :=
  omap (λ e, match e with CallHistory g c r => Some (g, c, r) | _ => None end) tr.

(** ** [recall_config_command] *)

(** The last line of the reply: all groups, or the number of listed groups. *)
Inductive whitelist_line :=
  | AllGroups                    (* 白名单群: 所有群聊 *)
  | GroupCount (n : nat).        (* 白名单群: {n}个 *)

(** The values the reply of [recall_config_command] prints, line by line. *)
Record config_info := ConfigInfo {
  shown_recall_time : Z;
  shown_private : bool;
  shown_group : bool;
  shown_whitelist : whitelist_line;
}.

Definition recall_config_command (conf : config) : config_info :=
  ConfigInfo (recall_time conf)
    (default true (enable_private_recall conf))
    (default true (enable_group_recall conf))
    (let group_whitelist := default [] (group_whitelist conf) in
     if list_truthy group_whitelist then GroupCount (length group_whitelist)
     else AllGroups).

(** What [_get_recent_bot_messages] does besides returning: its one history
    call, and the error it logs when anything in its [try] block raises. *)
Inductive recent_effect :=
  | RecentHistoryCall (group_id count : Z) (res : history_result)
  | RecentLogError.

(** Case analysis on membership in an explicit list. *)
Ltac elem_inv H :=
  repeat first
    [ apply elem_of_nil in H; destruct H
    | apply elem_of_cons in H as [H|H] ];
  try discriminate.

Section Plugin.

(** The interpreter's tables and builtins: the code points matched by the
    regular expression class [\d], the code points removed by [str.strip],
    and [int] applied to a string ([None] for [ValueError]). *)
Variable is_decimal : N → bool.
Variable isspace : N → bool.
Variable py_int : pystr → option Z.

(** The protocol client: its state, and the two calls the command makes. *)
Context {W : Type}.
Variable get_group_msg_history : Z → Z → W → history_result * W.
Variable delete_msg : Z → W → delete_result * W.

Fixpoint lstrip (s : pystr) : pystr :=
  match s with
  | c :: s' => if isspace c then lstrip s' else s
  | [] => []
  end.

Definition strip (s : pystr) : pystr := reverse (lstrip (reverse (lstrip s))).

(** [re.findall(r"\d+", s)]: the maximal runs of decimal digits, left to
    right. *)
Fixpoint findall_digits (s : pystr) : list pystr :=
  match s with
  | [] => []
  | c :: s' =>
      if is_decimal c then
        match findall_digits s' with
        | run :: runs =>
            if opt_truthy is_decimal (head s') then (c :: run) :: runs
            else [c] :: run :: runs
        | [] => [[c]]
        end
      else findall_digits s'
  end.

(** Lines 209-214: the digit runs of the text after the keyword. *)
Definition command_numbers (ev : event) : list pystr :=
  let full_text := strip (join_plain (get_messages ev)) in
  let tail := default full_text (after_first keyword full_text) in
  findall_digits tail.

(** [max_count = int(self.conf.get("batch_max_count", 20))] *)
Definition configured_max_count (conf : config) : Z :=
  default 20 (batch_max_count conf).

(** [fetch_count = min(max_count * 3, 100)] *)
Definition fetch_count_for (max_count : Z) : Z := Z.min (max_count * 3) 100.

(** The loop of lines 260-269.  An entry without a truthy [message_id] is
    skipped; a delete that raises is logged and the loop goes on. *)
Fixpoint recall_loop (to_recall : list message) (success : nat) (w : W)
  : nat * list effect * W :=
  match to_recall with
  | [] => (success, [], w)
  | msg :: rest =>
      match deletable_id msg with
      | None => recall_loop rest success w
      | Some i =>
          let '(res, w1) := delete_msg i w in
          match res with
          | DeleteOk =>
              let '(n, tr, w2) := recall_loop rest (S success) w1 in
              (n, CallDelete i res :: tr, w2)
          | DeleteRaised _ =>
              let '(n, tr, w2) := recall_loop rest success w1 in
              (n, CallDelete i res :: LogDeleteError i :: tr, w2)
          end
      end
  end.

(** Lines 224-274, entered with the parsed positive [count]. *)
Definition recall_batch (conf : config) (ev : event) (target_qq : option pystr)
    (count : Z) (w : W) : list effect * W :=
  let max_count := configured_max_count conf in
  let count := clamp_count count max_count in
  let fetch_count := fetch_count_for max_count in
  match py_int (group_id_str ev) with
  | None => ([LogHistoryError; Reply HistoryFetchFailed], w)
  | Some gid =>
      let '(res, w1) := get_group_msg_history gid fetch_count w in
      let fetched := CallHistory gid fetch_count res in
      match res with
      | HistoryRaised _ => ([fetched; LogHistoryError; Reply HistoryFetchFailed], w1)
      | _ =>
          let history_messages := history_messages_of res in
          let filtered_messages := filter_history target_qq history_messages in
          let has_target := opt_truthy str_truthy target_qq in
          if negb (list_truthy filtered_messages) then
            ([fetched;
              Reply (if has_target then NoTargetUserMessages else NoBotMessages)], w1)
          else
            let to_recall := py_slice_to count (sort_by_time_desc filtered_messages) in
            let '(success, tr, w2) := recall_loop to_recall 0%nat w1 in
            (fetched :: tr ++
               [Reply (if has_target then RecalledOfUser success
                       else RecalledOfGroup success)], w2)
      end
  end.

(** The whole handler: the effects it produces, in order, and the client
    state it leaves. *)
Definition batch_recall_command (conf : config) (ev : event) (w : W)
  : list effect * W :=
  if negb (is_aiocqhttp ev) then ([Reply UnsupportedPlatform], w)
  else if negb (is_group ev) then ([Reply GroupChatOnly], w)
  else
    let target_qq := find_target (get_messages ev) in
    match last (command_numbers ev) with
    | None => ([Reply NeedCount], w)
    | Some digits =>
        match py_int digits with
        | None => ([UncaughtValueError], w)
        | Some count =>
            if count <=? 0 then ([Reply CountMustBePositive], w)
            else recall_batch conf ev target_qq count w
        end
    end.

(** ** [_get_recent_bot_messages] *)

(** [self_id] is [event.get_self_id()].  [int(event.get_group_id())] raises
    without a group id or on a string that is no number; [result.get]
    raises on a result that is no dict; every exception is caught, logged,
    and answered with the empty list. *)
Definition _get_recent_bot_messages (self_id : pystr) (ev : event) (count : Z)
    (w : W) : list message * list recent_effect * W :=
  match get_group_id ev ≫= py_int with
  | None => ([], [RecentLogError], w)
  | Some gid =>
      let '(res, w1) := get_group_msg_history gid count w in
      let called := RecentHistoryCall gid count res in
      match res with
      | HistoryDict messages =>
          (filter (λ msg, sender_str msg = self_id) (default [] messages),
           [called], w1)
      | _ => ([], [called; RecentLogError], w1)
      end
  end.

(** ** [intercept_and_recall] *)

Definition intercept_and_recall (conf : config) (ev : event) (env : intercept_env)
    (s : loop) : loop * list intercept_call * list log_entry :=
  if negb (_should_enable_recall conf ev) then (s, [], [])
  else if negb (is_aiocqhttp ev) then (s, [], [])
  else
    match get_result ev with
    | None | Some [] => (s, [], [Intercepted; EmptyChain])
    | Some (_ :: _) =>
        match parsed_messages env with
        | None => (s, [ClearChain], [Intercepted; InterceptFailed])
        | Some [] => (s, [ClearChain], [Intercepted; NothingToSend])
        | Some (_ :: _) =>
            let session_id :=
              if is_group ev then group_id_str ev else get_sender_id ev in
            match py_int session_id with
            | None => (s, [ClearChain], [Intercepted; SendFailed])
            | Some sid =>
                let call :=
                  if is_group ev then SendGroupMsg sid else SendPrivateMsg sid in
                match send_outcome env with
                | SendRaised => (s, [ClearChain; call], [Intercepted; SendFailed])
                | r =>
                    let '(s', logs) := schedule_from_send r s in
                    (s', [ClearChain; call], Intercepted :: logs)
                end
            end
        end
    end.

(** ** Steps of the event loop *)

(** The loop resumes task [t].  A task whose cancellation was requested is
    resumed with [CancelledError] and with nothing else.  When the coroutine
    finishes, the loop queues the task's done-callback with [call_soon]: it
    runs in a later step, [DoneCallback], not within this one. *)
Definition wake_task (t : nat) (w : wakeup) (s : loop) : option (loop * list log_entry) :=
  match tasks s !! t with
  | None => None
  | Some tk =>
      if bool_decide (must_cancel tk = is_cancel w) then
        match _recall_msg (task_message_id tk) (task_coro tk) w with
        | None => None
        | Some (pos, logs) =>
            let tk' := Task (task_message_id tk) pos false (remove_on_done tk) in
            Some (Loop (<[t := tk']> (tasks s)) (recall_tasks s)
                    (if done tk' && remove_on_done tk'
                     then {[t]} ∪ callbacks s else callbacks s)
                    (gathering s), logs)
        end
      else None
  end.

(** [task.cancel()] on a task that is not done. *)
Definition cancel (tk : task) : task :=
  Task (task_message_id tk) (task_coro tk) true (remove_on_done tk).

(** [terminate] up to its await (lines 175-178): every task of the registry
    that is not done is cancelled, and [gather] is started over the tasks
    of the registry. *)
Definition terminate_cancel_all (s : loop) : loop :=
  Loop (map_imap (λ t tk,
          Some (if bool_decide (t ∈ recall_tasks s) && negb (done tk)
                then cancel tk else tk)) (tasks s))
       (recall_tasks s) (callbacks s) (Some (recall_tasks s)).

(** [gather(..., return_exceptions=True)] resolves once every child is done,
    whatever its outcome; its own done-callbacks were added after
    [_remove_task], so it resolves after those have run. *)
Definition gathered (s : loop) (children : gset nat) : bool :=
  bool_decide (set_Forall (λ t, is_done s t = true ∧ t ∉ callbacks s) children).

(** [terminate] after its await (lines 179-180): [self.recall_tasks.clear()]. *)
Definition terminate_clear (s : loop) : loop :=
  Loop (tasks s) ∅ (callbacks s) None.

(** One callback of the event loop; [None] when the step is not enabled. *)
Definition loop_step (l : label) (s : loop) : option loop :=
  match l with
  | Intercept conf ev env => Some (intercept_and_recall conf ev env s).1.1
  | Wake t w => fst <$> wake_task t w s
  | DoneCallback t =>
      if bool_decide (t ∈ callbacks s) then Some (_remove_task t s) else None
  | TerminateCancel =>
      match gathering s with
      | None => Some (terminate_cancel_all s)
      | Some _ => None
      end
  | TerminateClear =>
      match gathering s with
      | Some children =>
          if gathered s children then Some (terminate_clear s) else None
      | None => None
      end
  end.

Fixpoint run (ls : list label) (s : loop) : option loop :=
  match ls with
  | [] => Some s
  | l :: ls' =>
      match loop_step l s with
      | Some s' => run ls' s'
      | None => None
      end
  end.

Definition reachable (s : loop) : Prop := ∃ ls, run ls initial = Some s.

(** ** [terminate] run to its end *)

(** While [terminate] waits, the loop delivers the pending cancellation of a
    child and then runs the done-callback this queues. *)
Definition settle (t : nat) (s : loop) : loop :=
  let s1 := default s (loop_step (Wake t Cancel) s) in
  default s1 (loop_step (DoneCallback t) s1).

Definition terminate (s : loop) : loop :=
  terminate_clear (foldr settle (terminate_cancel_all s) (elements (recall_tasks s))).


(** ** Invariants of the registry *)

(** What holds of every state the loop can reach: a handle in the registry
    is a task that is not done, or is done with its [_remove_task] callback
    still queued; queued callbacks belong to finished tasks; and every task
    carries the done-callback. *)
Record loop_inv (s : loop) : Prop := LoopInv {
  inv_registered : ∀ t, t ∈ recall_tasks s →
    ∃ tk, tasks s !! t = Some tk ∧ (done tk = true → t ∈ callbacks s);
  inv_callbacks : ∀ t, t ∈ callbacks s → is_done s t = true;
  inv_remove_on_done : ∀ t tk, tasks s !! t = Some tk → remove_on_done tk = true;
}.

(** Every task that is not done is in the registry. *)
Definition pending_registered (s : loop) : Prop :=
  ∀ t tk, tasks s !! t = Some tk → done tk = false → t ∈ recall_tasks s.

(** A child [terminate] can wait for: finished, or cancelled and about to
    finish, with the done-callback attached. *)
Definition settles (s : loop) (t : nat) : Prop :=
  ∃ tk, tasks s !! t = Some tk ∧ remove_on_done tk = true ∧
        (done tk = true ∨ must_cancel tk = true).

(** ** Progress of the recall tasks *)

(** How far a coroutine has come: the three positions it can be resumed
    from, in order, and finished. *)
Definition coro_rank (pos : coro) : nat :=
  match pos with
  | NotStarted => 0
  | Sleeping => 1
  | Deleting => 2
  | Returned | Cancelled | Failed _ => 3
  end.

Definition rank_of (s : loop) (t : nat) : nat :=
  match tasks s !! t with Some tk => coro_rank (task_coro tk) | None => 0 end.

(** The delete call a step of the loop issues, if any: a task makes its
    call [client.delete_msg(message_id=message_id)] in the step that takes
    it from its sleep to the await of the call. *)
Definition issued_delete (l : label) (s s' : loop) : list (nat * Z) :=
  match l with
  | Wake t _ =>
      match tasks s' !! t with
      | Some tk =>
          match task_coro tk with
          | Deleting => [(t, task_message_id tk)]
          | _ => []
          end
      | None => []
      end
  | _ => []
  end.

(** The delete calls issued by the recall tasks along a run, in order, each
    with the handle of the task that made it. *)
Fixpoint issued_deletes (ls : list label) (s : loop) : list (nat * Z) :=
  match ls with
  | [] => []
  | l :: ls' =>
      match loop_step l s with
      | Some s' => issued_delete l s s' ++ issued_deletes ls' s'
      | None => []
      end
  end.

(** While [terminate] waits, each task it waits for is finished or is
    cancelled and about to finish. *)
Definition drain_inv (s : loop) : Prop :=
  ∀ children, gathering s = Some children → ∀ t, t ∈ children → settles s t.

(** Every task carries a message id that is not zero. *)
Definition ids_nonzero (s : loop) : Prop :=
  ∀ t tk, tasks s !! t = Some tk → task_message_id tk ≠ 0.

(** * Properties *)

(** ** Gating of the automatic recall *)

Lemma should_enable_private conf ev :
  is_group ev = false →
  _should_enable_recall conf ev = default true (enable_private_recall conf).
Proof. intros Hg. unfold _should_enable_recall. by rewrite Hg. Qed.

Lemma should_enable_unlisted conf ev :
  is_group ev = true →
  default [] (group_whitelist conf) ≠ [] →
  group_id_str ev ∉ default [] (group_whitelist conf) →
  _should_enable_recall conf ev = false.
Proof.
  intros Hg Hne Hnotin. unfold _should_enable_recall. rewrite Hg. simpl.
  destruct (default [] (group_whitelist conf)) as [|g wl] eqn:Hwl; [done|].
  simpl. by rewrite bool_decide_false.
Qed.

Lemma should_enable_eligible conf ev :
  is_group ev = true →
  default [] (group_whitelist conf) = [] ∨
    group_id_str ev ∈ default [] (group_whitelist conf) →
  _should_enable_recall conf ev = default true (enable_group_recall conf).
Proof.
  intros Hg Hwl. unfold _should_enable_recall. rewrite Hg. simpl.
  destruct Hwl as [-> | Hin]; [done|].
  rewrite (bool_decide_true _ Hin). simpl. by rewrite andb_false_r.
Qed.

Lemma intercept_disabled conf ev env s :
  _should_enable_recall conf ev = false →
  intercept_and_recall conf ev env s = (s, [], []).
Proof. intros H. unfold intercept_and_recall. by rewrite H. Qed.

(** C8. For a group event (truthy group id): when the configured allow-list
    is non-empty and does not hold the event's group id, automatic recall is
    off for the event and the intercept handler does nothing; when the
    allow-list is empty (or holds the id), the group-enable flag alone
    decides.  For a private event the private-enable flag alone decides. *)
Theorem allow_list_gating conf ev :
  let whitelist := default [] (group_whitelist conf) in
  (is_group ev = true → whitelist ≠ [] → group_id_str ev ∉ whitelist →
     _should_enable_recall conf ev = false ∧
     ∀ env s, intercept_and_recall conf ev env s = (s, [], []))
  ∧ (is_group ev = true → whitelist = [] ∨ group_id_str ev ∈ whitelist →
     _should_enable_recall conf ev = default true (enable_group_recall conf))
  ∧ (is_group ev = false →
     _should_enable_recall conf ev = default true (enable_private_recall conf)).
Proof.
  intros whitelist. split; [|split].
  - intros Hg Hne Hnotin.
    pose proof (should_enable_unlisted conf ev Hg Hne Hnotin) as Hoff.
    split; [done|]. intros env s. by apply intercept_disabled.
  - apply should_enable_eligible.
  - apply should_enable_private.
Qed.

(** ** The recall task handles every outcome of its delete call *)



Lemma recall_msg_after_delete message_id res :
  _recall_msg message_id Deleting (DeleteDone res) =
    if retcode_missing res then Some (Failed KeyError, [])
    else Some (Returned,
               [match res with
                | DeleteOk => Recalled message_id
                | DeleteRaised e =>
                    if is_benign e then AlreadyGone message_id else RecallFailed e
                end]).
Proof.
  destruct res as [|[[rc|]| |]]; cbn [_recall_msg retcode_missing]; try done.
  by destruct (is_benign (ActionFailed (Some rc))).
Qed.




(** ** A send without a message id schedules nothing *)

Lemma schedule_from_send_falsy r s :
  sent_message_id r = None ∨ sent_message_id r = Some 0 →
  schedule_from_send r s = (s, [NoMessageId]).
Proof. unfold schedule_from_send. by intros [-> | ->]. Qed.

Lemma intercept_state_cases conf ev env s :
  (intercept_and_recall conf ev env s).1.1 = s ∨
  (intercept_and_recall conf ev env s).1.1 = (schedule_from_send (send_outcome env) s).1.
Proof.
  unfold intercept_and_recall.
  repeat (case_match; simpl; auto).
  all: simplify_eq/=; auto.
Qed.

(** C3. When the result of the send carries no message id, or the id zero,
    lines 115-127 only log and return: the loop state is the one before, so
    no task was created and [recall_tasks] is unchanged.  The same holds for
    the whole handler. *)
Theorem missing_message_id_schedules_nothing conf ev env s :
  sent_message_id (send_outcome env) = None ∨
    sent_message_id (send_outcome env) = Some 0 →
  schedule_from_send (send_outcome env) s = (s, [NoMessageId])
  ∧ (intercept_and_recall conf ev env s).1.1 = s.
Proof.
  intros Hid. pose proof (schedule_from_send_falsy _ s Hid) as Hs.
  split; [done|].
  destruct (intercept_state_cases conf ev env s) as [H|H]; [done|].
  by rewrite H, Hs.
Qed.


(** ** The batch window *)

Lemma insert_desc_at_time k x l :
  StronglySorted newer_first l →
  at_time k (insert_desc x l) =
    if decide (timestamp x = k) then x :: at_time k l else at_time k l.
Proof.
  unfold at_time. induction 1 as [|y l Hl IH Hy]; simpl.
  - rewrite filter_cons, filter_nil. done.
  - destruct (Z.leb_spec (timestamp y) (timestamp x)) as [Hle|Hlt].
    + by rewrite filter_cons.
    + rewrite !(filter_cons _ y), IH.
      destruct (decide (timestamp x = k)) as [Hx|Hx]; [|done].
      destruct (decide (timestamp y = k)); [lia|done].
Qed.

Lemma insert_desc_elem x y l : y ∈ insert_desc x l ↔ y = x ∨ y ∈ l.
Proof.
  induction l as [|z l IH]; simpl.
  - set_solver.
  - destruct (timestamp z <=? timestamp x).
    + rewrite !elem_of_cons. tauto.
    + rewrite !elem_of_cons, IH. tauto.
Qed.

Lemma insert_desc_sorted x l :
  StronglySorted newer_first l → StronglySorted newer_first (insert_desc x l).
Proof.
  induction 1 as [|y l Hl IH Hy]; simpl.
  - repeat constructor.
  - destruct (Z.leb_spec (timestamp y) (timestamp x)) as [Hle|Hlt].
    + constructor; [by constructor|].
      constructor; [done|].
      eapply Forall_impl; [exact Hy|]. unfold newer_first. intros; lia.
    + constructor; [done|].
      apply Forall_forall. intros z [->|Hz]%insert_desc_elem.
      * unfold newer_first. lia.
      * by eapply Forall_forall in Hy.
Qed.

Lemma sort_by_time_desc_sorted l : StronglySorted newer_first (sort_by_time_desc l).
Proof.
  induction l as [|x l IH]; simpl; [constructor|]. by apply insert_desc_sorted.
Qed.

Lemma sort_by_time_desc_at_time k l :
  at_time k (sort_by_time_desc l) = at_time k l.
Proof.
  induction l as [|x l IH]; simpl; [done|].
  rewrite insert_desc_at_time by apply sort_by_time_desc_sorted.
  rewrite IH. unfold at_time. rewrite filter_cons. done.
Qed.

Lemma sort_by_time_desc_spec l : spec_sorted l (sort_by_time_desc l).
Proof.
  split; [apply sort_by_time_desc_sorted | intros k; apply sort_by_time_desc_at_time].
Qed.

Lemma insert_desc_length x l : length (insert_desc x l) = S (length l).
Proof.
  induction l as [|y l IH]; simpl; [done|].
  destruct (timestamp y <=? timestamp x); simpl; by rewrite ?IH.
Qed.

Lemma sort_by_time_desc_length l : length (sort_by_time_desc l) = length l.
Proof.
  induction l as [|x l IH]; simpl; [done|]. by rewrite insert_desc_length, IH.
Qed.

Lemma at_time_elem k x l : x ∈ at_time k l ↔ timestamp x = k ∧ x ∈ l.
Proof. unfold at_time. by rewrite list_elem_of_filter. Qed.

(** Two descending lists with the same entries, in the same order, at every
    timestamp are the same list: the specification's sort has one result. *)
Lemma sorted_by_times_unique s1 s2 :
  StronglySorted newer_first s1 → StronglySorted newer_first s2 →
  (∀ k, at_time k s1 = at_time k s2) → s1 = s2.
Proof.
  intros H1. revert s2. induction H1 as [|x s1 Hs1 IH Hx]; intros s2 H2 Heq.
  - destruct s2 as [|y s2]; [done|].
    specialize (Heq (timestamp y)). unfold at_time in Heq.
    rewrite filter_nil, filter_cons, decide_True in Heq by done. done.
  - destruct H2 as [|y s2 Hs2 Hy].
    { specialize (Heq (timestamp x)). unfold at_time in Heq.
      rewrite filter_nil, filter_cons, decide_True in Heq by done. done. }
    assert (timestamp y ≤ timestamp x) as Hyx.
    { assert (y ∈ at_time (timestamp y) (x :: s1)) as Hin.
      { rewrite Heq. apply at_time_elem. split; [done|]. by left. }
      apply at_time_elem in Hin as [_ [->|Hin]%elem_of_cons]; [lia|].
      by eapply Forall_forall in Hx. }
    assert (timestamp x ≤ timestamp y) as Hxy.
    { assert (x ∈ at_time (timestamp x) (y :: s2)) as Hin.
      { rewrite <- Heq. apply at_time_elem. split; [done|]. by left. }
      apply at_time_elem in Hin as [_ [->|Hin]%elem_of_cons]; [lia|].
      by eapply Forall_forall in Hy. }
    assert (timestamp x = timestamp y) as Hk by lia.
    pose proof (Heq (timestamp x)) as H0. unfold at_time in H0.
    rewrite !filter_cons in H0.
    rewrite decide_True in H0 by done. rewrite decide_True in H0 by done.
    injection H0 as -> Htl. f_equal.
    apply IH; [done|]. intros k.
    destruct (decide (timestamp y = k)) as [<-|Hne]; [done|].
    specialize (Heq k). unfold at_time in Heq.
    rewrite !filter_cons in Heq.
    rewrite decide_False in Heq by done. rewrite decide_False in Heq by done.
    done.
Qed.

Lemma spec_sorted_unique l s1 s2 : spec_sorted l s1 → spec_sorted l s2 → s1 = s2.
Proof.
  intros [H1 E1] [H2 E2]. apply sorted_by_times_unique; [done..|].
  intros k. by rewrite E1, E2.
Qed.

Lemma filter_history_spec target_qq history :
  filter_history target_qq history = spec_filter (target_sender target_qq) history.
Proof. unfold filter_history. by destruct target_qq as [[|c q]|]. Qed.

Lemma clamp_count_spec count max_count :
  clamp_count count max_count = spec_clamp count max_count.
Proof.
  unfold clamp_count, spec_clamp.
  destruct (Z.gtb_spec count max_count); lia.
Qed.


Lemma py_slice_to_nonneg {A} count (l : list A) :
  0 ≤ count → py_slice_to count l = take (Z.to_nat count) l.
Proof. intros H. unfold py_slice_to. by rewrite (proj2 (Z.leb_le 0 count) H). Qed.

Lemma spec_filter_length target history :
  (length (spec_filter target history) ≤ length history)%nat.
Proof. destruct target; simpl; [apply length_filter | done]. Qed.

(** C1, for a configured maximum that is not negative.  The window handed to
    the delete loop is the first [min(count, max_count)] entries of the
    history filtered by the target sender (when one is given) and sorted by
    timestamp, newest first, ties in fetch order; so it never holds more
    entries than [min(count, number of filtered entries)]. *)
Theorem batch_selection history target_qq count max_count :
  0 < count → 0 ≤ max_count →
  let filtered := spec_filter (target_sender target_qq) history in
  let selected := select_to_recall history target_qq count max_count in
  (∃ sorted, spec_sorted filtered sorted)
  ∧ (∀ sorted, spec_sorted filtered sorted →
       selected = take (Z.to_nat (spec_clamp count max_count)) sorted)
  ∧ (length selected ≤ Nat.min (Z.to_nat count) (length filtered))%nat.
Proof.
  intros Hcount Hmax filtered selected.
  assert (selected = take (Z.to_nat (spec_clamp count max_count))
                       (sort_by_time_desc filtered)) as Hsel.
  { unfold selected, select_to_recall.
    rewrite filter_history_spec, clamp_count_spec.
    apply py_slice_to_nonneg. unfold spec_clamp. lia. }
  split; [|split].
  - exists (sort_by_time_desc filtered). apply sort_by_time_desc_spec.
  - intros sorted Hsorted. rewrite Hsel. f_equal.
    eapply spec_sorted_unique; [apply sort_by_time_desc_spec | done].
  - rewrite Hsel, length_take, sort_by_time_desc_length.
    unfold spec_clamp. lia.
Qed.

(** ** The delete loop *)

Lemma deletable_id_None msg :
  deletable_id msg = None ↔ message_id msg = None ∨ message_id msg = Some 0.
Proof.
  unfold deletable_id, int_truthy. destruct (message_id msg) as [i|].
  - destruct (Z.eqb_spec i 0) as [->|Hne]; simpl.
    + split; auto.
    + split; [done|]. intros [?|?]; congruence.
  - split; auto.
Qed.

Lemma recall_loop_skip msg rest n w :
  deletable_id msg = None → recall_loop (msg :: rest) n w = recall_loop rest n w.
Proof. intros H. simpl. by rewrite H. Qed.

Lemma omap_cons_eq {A B} (f : A → option B) x l :
  omap f (x :: l) = match f x with Some y => y :: omap f l | None => omap f l end.
Proof. reflexivity. Qed.

Lemma delete_calls_cons e tr :
  delete_calls (e :: tr) =
    match e with
    | CallDelete i r => (i, r) :: delete_calls tr
    | _ => delete_calls tr
    end.
Proof. by destruct e. Qed.

Lemma delete_calls_app tr1 tr2 :
  delete_calls (tr1 ++ tr2) = delete_calls tr1 ++ delete_calls tr2.
Proof. apply omap_app. Qed.

(** The calls of the loop are the deletable ids of the window, in order,
    whatever the outcomes; the tally grows by the number of successes. *)
Lemma recall_loop_spec to_recall n w :
  (delete_calls (recall_loop to_recall n w).1.2).*1 = omap deletable_id to_recall
  ∧ (recall_loop to_recall n w).1.1 =
      (n + length (filter (λ c, delete_succeeded c = true)
                     (delete_calls (recall_loop to_recall n w).1.2)))%nat
  ∧ Forall (λ e, ∀ r, e ≠ Reply r) (recall_loop to_recall n w).1.2
  ∧ Forall (λ e, ∀ g c r, e ≠ CallHistory g c r) (recall_loop to_recall n w).1.2.
Proof.
  revert n w. induction to_recall as [|msg rest IH]; intros n w.
  - cbn. repeat split; by try constructor.
  - cbn [recall_loop]. rewrite omap_cons_eq.
    destruct (deletable_id msg) as [i|] eqn:Hid; [|apply IH].
    destruct (delete_msg i w) as [res w1].
    destruct res as [|e].
    + specialize (IH (S n) w1).
      destruct (recall_loop rest (S n) w1) as [[n' tr] w2].
      cbn [fst snd] in *. destruct IH as (Hc & Hn & Hr & Hh).
      rewrite delete_calls_cons, fmap_cons, filter_cons, Hc.
      repeat split; [|by constructor..].
      rewrite decide_True by done. cbn [length]. lia.
    + specialize (IH n w1).
      destruct (recall_loop rest n w1) as [[n' tr] w2].
      cbn [fst snd] in *. destruct IH as (Hc & Hn & Hr & Hh).
      rewrite !delete_calls_cons, fmap_cons, filter_cons, Hc.
      repeat split; [|by repeat constructor..].
      rewrite decide_False by done. done.
Qed.

Lemma omap_length_le {A B} (f : A → option B) l : (length (omap f l) ≤ length l)%nat.
Proof.
  induction l as [|x l IH]; [done|].
  rewrite omap_cons_eq. destruct (f x); cbn [length]; lia.
Qed.

Lemma omap_length_split {A B} (f : A → option B) l :
  (length (omap f l) + length (filter (λ x, f x = None) l) = length l)%nat.
Proof.
  induction l as [|x l IH]; [done|].
  rewrite omap_cons_eq, filter_cons. destruct (f x) eqn:Hx.
  - rewrite decide_False by done. cbn [length]. lia.
  - rewrite decide_True by done. cbn [length]. lia.
Qed.


(** ** The shape of the handler's trace *)

Lemma batch_recall_command_cases conf ev w :
  (∃ rp, batch_recall_command conf ev w = ([Reply rp], w) ∧ rp ∈ rejections)
  ∨ batch_recall_command conf ev w = ([UncaughtValueError], w)
  ∨ (∃ digits count,
       last (command_numbers ev) = Some digits ∧ py_int digits = Some count ∧
       0 < count ∧
       batch_recall_command conf ev w =
         recall_batch conf ev (find_target (get_messages ev)) count w).
Proof.
  unfold batch_recall_command, rejections.
  destruct (is_aiocqhttp ev); simpl;
    [|left; exists UnsupportedPlatform; split; [done|repeat constructor]].
  destruct (is_group ev); simpl;
    [|left; exists GroupChatOnly; split; [done|repeat constructor]].
  destruct (last (command_numbers ev)) as [digits|] eqn:Hlast;
    [|left; exists NeedCount; split; [done|repeat constructor]].
  destruct (py_int digits) as [count|] eqn:Hint; [|by right; left].
  destruct (Z.leb_spec count 0) as [Hle|Hlt].
  - left; exists CountMustBePositive; split; [done|repeat constructor].
  - right; right. exists digits, count. by rewrite Hint.
Qed.

Lemma recall_batch_cases conf ev target_qq count w :
  let max_count := configured_max_count conf in
  recall_batch conf ev target_qq count w
    = ([LogHistoryError; Reply HistoryFetchFailed], w)
  ∨ ∃ gid res w1,
      py_int (group_id_str ev) = Some gid ∧
      get_group_msg_history gid (fetch_count_for max_count) w = (res, w1) ∧
      let fetched := CallHistory gid (fetch_count_for max_count) res in
      (recall_batch conf ev target_qq count w
         = ([fetched; LogHistoryError; Reply HistoryFetchFailed], w1)
       ∨ (∃ rp, recall_batch conf ev target_qq count w = ([fetched; Reply rp], w1)
                ∧ rp ∈ [NoTargetUserMessages; NoBotMessages])
       ∨ (let loop_run :=
            recall_loop (select_to_recall (history_messages_of res) target_qq
                           count max_count) 0%nat w1 in
          recall_batch conf ev target_qq count w
            = (fetched :: loop_run.1.2 ++
                 [Reply (if opt_truthy str_truthy target_qq
                         then RecalledOfUser loop_run.1.1
                         else RecalledOfGroup loop_run.1.1)], loop_run.2))).
Proof.
  intros max_count. unfold recall_batch. fold max_count.
  destruct (py_int (group_id_str ev)) as [gid|]; [|by left].
  right. destruct (get_group_msg_history gid (fetch_count_for max_count) w)
    as [res w1] eqn:Hfetch.
  exists gid, res, w1. split; [done|]. split; [done|]. cbn zeta.
  unfold select_to_recall.
  destruct (recall_loop _ 0%nat w1) as [[success tr] w2] eqn:Hloop.
  destruct res as [e| |messages]; [by left|..].
  all: destruct (negb (list_truthy _)); [|by right; right].
  all: right; left; eexists; split; [done|].
  all: destruct (opt_truthy str_truthy target_qq); repeat constructor.
Qed.


(** A handler run that reports a tally went through the fetch and the
    delete loop over the selected window. *)
Lemma batch_recall_command_reports conf ev w n :
  reports (batch_recall_command conf ev w).1 n →
  ∃ digits count gid res,
    last (command_numbers ev) = Some digits ∧ py_int digits = Some count ∧
    0 < count ∧
    head (batch_recall_command conf ev w).1
      = Some (CallHistory gid (fetch_count_for (configured_max_count conf)) res) ∧
    let selected :=
      select_to_recall (history_messages_of res) (find_target (get_messages ev))
        count (configured_max_count conf) in
    (delete_calls (batch_recall_command conf ev w).1).*1 = omap deletable_id selected
    ∧ n = succeeded_count (batch_recall_command conf ev w).1.
Proof.
  unfold reports.
  destruct (batch_recall_command_cases conf ev w)
    as [(rp & -> & Hrp) | [-> | (digits & count & Hlast & Hint & Hpos & ->)]].
  - unfold rejections in Hrp. intros [H|H]; elem_inv H;
      injection H as <-; elem_inv Hrp.
  - intros [H|H]; elem_inv H.
  - destruct (recall_batch_cases conf ev (find_target (get_messages ev)) count w)
      as [-> | (gid & res & w1 & Hgid & Hfetch & [-> | [(rp & -> & Hrp) | Hrun]])].
    + intros [H|H]; elem_inv H.
    + intros [H|H]; elem_inv H.
    + intros [H|H]; elem_inv H; injection H as <-; elem_inv Hrp.
    + cbn zeta in Hrun. rewrite Hrun. clear Hrun. cbn [fst snd].
      set (selected := select_to_recall _ _ _ _).
      destruct (recall_loop_spec selected 0%nat w1) as (Hcalls & Htally & Hnoreply & _).
      set (loop_run := recall_loop selected 0%nat w1) in *.
      intros Hrep. exists digits, count, gid, res.
      split; [done|]. split; [done|]. split; [done|]. split; [done|].
      assert (delete_calls
                (CallHistory gid (fetch_count_for (configured_max_count conf)) res
                 :: loop_run.1.2 ++
                 [Reply (if opt_truthy str_truthy (find_target (get_messages ev))
                         then RecalledOfUser loop_run.1.1
                         else RecalledOfGroup loop_run.1.1)])
              = delete_calls loop_run.1.2) as Hdc.
      { rewrite delete_calls_cons, delete_calls_app.
        destruct (opt_truthy _ _); cbn; by rewrite app_nil_r. }
      unfold succeeded_count. rewrite Hdc. split; [done|].
      assert (n = loop_run.1.1) as ->; [|by rewrite Htally at 1].
      destruct Hrep as [H|H].
      all: apply elem_of_cons in H as [H|H]; [discriminate|].
      all: apply elem_of_app in H as [H|H];
        [by eapply Forall_forall in Hnoreply; [exfalso; eapply Hnoreply|] |].
      all: destruct (opt_truthy _ _); elem_inv H; by injection H.
Qed.

(** C6. The delete loop calls [delete_msg] for every entry of the window
    that has a message id, in order and whatever the earlier outcomes were,
    so a failure does not stop the later attempts; its tally is the number
    of calls that succeeded and is at most the size of the window.  The
    tally the handler reports is the number of successful delete calls of
    its run, and is at most the size of the selected window. *)
Theorem batch_deletion_tally conf ev w to_recall w0 n :
  let loop_run := recall_loop to_recall 0%nat w0 in
  let tr := (batch_recall_command conf ev w).1 in
  ((delete_calls loop_run.1.2).*1 = omap deletable_id to_recall
   ∧ loop_run.1.1 = succeeded_count loop_run.1.2
   ∧ (loop_run.1.1 ≤ length to_recall)%nat)
  ∧ (reports tr n →
     ∃ digits count gid res,
       last (command_numbers ev) = Some digits ∧ py_int digits = Some count ∧
       head tr = Some (CallHistory gid
                         (fetch_count_for (configured_max_count conf)) res) ∧
       let selected :=
         select_to_recall (history_messages_of res)
           (find_target (get_messages ev)) count (configured_max_count conf) in
       (delete_calls tr).*1 = omap deletable_id selected
       ∧ n = succeeded_count tr
       ∧ (n ≤ length selected)%nat).
Proof.
  intros loop_run tr. split.
  - destruct (recall_loop_spec to_recall 0%nat w0) as (Hcalls & Htally & _).
    fold loop_run in Hcalls, Htally.
    split; [done|]. split; [done|].
    rewrite Htally. cbn [Nat.add].
    etrans; [apply length_filter|].
    rewrite <- (length_fmap fst), Hcalls. apply omap_length_le.
  - intros Hrep.
    destruct (batch_recall_command_reports conf ev w n Hrep)
      as (digits & count & gid & res & Hlast & Hint & _ & Hhead & Hcalls & Hn).
    fold tr in Hhead, Hcalls, Hn. exists digits, count, gid, res.
    split; [done|]. split; [done|]. split; [done|]. cbn zeta.
    split; [done|]. split; [done|].
    rewrite Hn. unfold succeeded_count.
    etrans; [apply length_filter|].
    rewrite <- (length_fmap fst), Hcalls. apply omap_length_le.
Qed.

(** ** Rejected commands *)

(** X22. When the text after the keyword holds no digit run, or the last
    digit run reads as a count that is not positive, the handler yields one
    rejection reply and returns: its trace holds no history fetch and no
    delete call, and the client state is untouched.  Past the platform and
    group checks the reply is the one asking for a count, respectively for a
    positive count. *)
Theorem invalid_count_rejected conf ev w :
  command_numbers ev = [] ∨
    (∃ digits count, last (command_numbers ev) = Some digits ∧
       py_int digits = Some count ∧ count ≤ 0) →
  ∃ rp,
    batch_recall_command conf ev w = ([Reply rp], w)
    ∧ rp ∈ rejections
    ∧ Forall (λ e, is_client_call e = false) (batch_recall_command conf ev w).1
    ∧ (is_aiocqhttp ev = true → is_group ev = true →
       rp = if bool_decide (command_numbers ev = [])
            then NeedCount else CountMustBePositive).
Proof.
  intros Hbad. unfold batch_recall_command, rejections.
  destruct (is_aiocqhttp ev) eqn:Hplat; cbn [negb].
  2:{ exists UnsupportedPlatform. split; [done|].
      split; [repeat constructor|]. split; [repeat constructor|]. done. }
  destruct (is_group ev) eqn:Hgroup; cbn [negb].
  2:{ exists GroupChatOnly. split; [done|].
      split; [repeat constructor|]. split; [repeat constructor|]. done. }
  destruct Hbad as [Hnone | (digits & count & Hlast & Hint & Hle)].
  - rewrite Hnone. cbn [last]. exists NeedCount. split; [done|].
    split; [repeat constructor|]. split; [repeat constructor|]. done.
  - rewrite Hlast, Hint. rewrite (proj2 (Z.leb_le count 0) Hle).
    exists CountMustBePositive. split; [done|].
    split; [repeat constructor|]. split; [repeat constructor|].
    intros _ _. rewrite bool_decide_false; [done|].
    intros Hnil. by rewrite Hnil in Hlast.
Qed.

(** ** The history fetch *)

(** C9. Every history fetch of a handler run asks for
    [min(max_count * 3, 100)] entries, [max_count] being the configured
    batch maximum (20 when the key is absent). *)
Theorem history_fetch_count conf ev w gid n res :
  CallHistory gid n res ∈ (batch_recall_command conf ev w).1 →
  n = Z.min (configured_max_count conf * 3) 100.
Proof.
  intros H.
  destruct (batch_recall_command_cases conf ev w)
    as [(rp & Heq & _) | [Heq | (digits & count & _ & _ & _ & Heq)]];
    rewrite Heq in H; clear Heq; cbn [fst] in H.
  - elem_inv H.
  - elem_inv H.
  - destruct (recall_batch_cases conf ev (find_target (get_messages ev)) count w)
      as [Heq | (g & r & w1 & _ & _ & [Heq | [(rp & Heq & _) | Heq]])];
      cbn zeta in Heq; rewrite Heq in H; clear Heq; cbn [fst] in H.
    + elem_inv H.
    + elem_inv H. by injection H as -> -> ->.
    + elem_inv H. by injection H as -> -> ->.
    + apply elem_of_cons in H as [H|H]; [by injection H as -> -> ->|].
      apply elem_of_app in H as [H|H]; [|elem_inv H].
      destruct (recall_loop_spec
        (select_to_recall (history_messages_of r) (find_target (get_messages ev))
           count (configured_max_count conf)) 0%nat w1) as (_ & _ & _ & Hnofetch).
      eapply Forall_forall in Hnofetch; [|exact H]. by exfalso; eapply Hnofetch.
Qed.

(** ** Entries without a message id *)

Lemma insert_desc_with_message_id f x l :
  insert_desc (with_message_id f x) (with_message_id f <$> l)
    = with_message_id f <$> insert_desc x l.
Proof.
  induction l as [|y l IH]; [done|].
  cbn [fmap list_fmap insert_desc]. 
  change (timestamp (with_message_id f y)) with (timestamp y).
  change (timestamp (with_message_id f x)) with (timestamp x).
  destruct (timestamp y <=? timestamp x); [done|].
  cbn [fmap list_fmap] in *. by rewrite IH.
Qed.

Lemma sort_by_time_desc_with_message_id f l :
  sort_by_time_desc (with_message_id f <$> l)
    = with_message_id f <$> sort_by_time_desc l.
Proof.
  induction l as [|x l IH]; [done|].
  cbn [fmap list_fmap sort_by_time_desc foldr] in *.
  unfold sort_by_time_desc in IH. rewrite IH.
  apply insert_desc_with_message_id.
Qed.

Lemma filter_history_with_message_id f target_qq l :
  filter_history target_qq (with_message_id f <$> l)
    = with_message_id f <$> filter_history target_qq l.
Proof.
  unfold filter_history. destruct (opt_truthy str_truthy target_qq); [|done].
  induction l as [|x l IH]; [done|].
  rewrite fmap_cons, (filter_cons _ (with_message_id f x)), (filter_cons _ x).
  change (sender_str (with_message_id f x)) with (sender_str x).
  destruct (decide (sender_str x = default [] target_qq));
    by rewrite ?fmap_cons, IH.
Qed.

Lemma py_slice_to_fmap {A B} (g : A → B) count (l : list A) :
  py_slice_to count (g <$> l) = g <$> py_slice_to count l.
Proof.
  unfold py_slice_to. rewrite length_fmap.
  destruct (0 <=? count); by rewrite fmap_take.
Qed.

(** The window is chosen from senders and timestamps alone. *)
Lemma select_to_recall_with_message_id f history target_qq count max_count :
  select_to_recall (with_message_id f <$> history) target_qq count max_count
    = with_message_id f <$> select_to_recall history target_qq count max_count.
Proof.
  unfold select_to_recall.
  by rewrite filter_history_with_message_id, sort_by_time_desc_with_message_id,
    py_slice_to_fmap.
Qed.

(** C10. An entry of the window whose [message_id] is missing or zero gets
    no delete call and leaves the tally as it is; the delete calls are
    exactly the ids of the other entries, so the calls and the skipped
    entries together fill the window; and the window itself is chosen
    without looking at message ids, so erasing the id of an entry does not
    bring another entry in. *)
Theorem falsy_message_id_keeps_slot msg rest n w f history target_qq count max_count :
  (message_id msg = None ∨ message_id msg = Some 0 →
     recall_loop (msg :: rest) n w = recall_loop rest n w)
  ∧ (let window := select_to_recall history target_qq count max_count in
     let loop_run := recall_loop window 0%nat w in
     (delete_calls loop_run.1.2).*1 = omap deletable_id window
     ∧ (length (delete_calls loop_run.1.2)
        + length (filter (λ m, deletable_id m = None) window) = length window)%nat
     ∧ (loop_run.1.1 ≤ length (delete_calls loop_run.1.2))%nat)
  ∧ select_to_recall (with_message_id f <$> history) target_qq count max_count
      = with_message_id f <$> select_to_recall history target_qq count max_count.
Proof.
  split; [|split].
  - intros H. apply recall_loop_skip. by apply deletable_id_None.
  - intros window loop_run.
    destruct (recall_loop_spec window 0%nat w) as (Hcalls & Htally & _).
    fold loop_run in Hcalls, Htally.
    split; [done|]. split.
    + rewrite <- (length_fmap fst), Hcalls. apply omap_length_split.
    + rewrite Htally. cbn [Nat.add]. apply length_filter.
  - apply select_to_recall_with_message_id.
Qed.


(** ** The event loop keeps the registry invariants *)

Lemma new_handle_fresh s : tasks s !! new_handle s = None.
Proof. apply not_elem_of_dom. unfold new_handle. apply is_fresh. Qed.

Lemma is_done_lookup s t tk : tasks s !! t = Some tk → is_done s t = done tk.
Proof. unfold is_done. by intros ->. Qed.

Lemma is_done_true s t :
  is_done s t = true ↔ ∃ tk, tasks s !! t = Some tk ∧ done tk = true.
Proof.
  unfold is_done. destruct (tasks s !! t) as [tk|]; [|naive_solver].
  split; [eauto|]. by intros (? & [= <-] & ?).
Qed.

Lemma recall_msg_resumable message_id pos w r :
  _recall_msg message_id pos w = Some r →
  pos = NotStarted ∨ pos = Sleeping ∨ pos = Deleting.
Proof. destruct pos; simpl; auto; by destruct w. Qed.

Lemma recall_msg_cancel message_id pos :
  pos = NotStarted ∨ pos = Sleeping ∨ pos = Deleting →
  _recall_msg message_id pos Cancel = Some (Cancelled, []).
Proof. by intros [-> | [-> | ->]]. Qed.

Lemma wake_task_Some t w s s' logs :
  wake_task t w s = Some (s', logs) →
  ∃ tk pos,
    tasks s !! t = Some tk ∧ done tk = false ∧ must_cancel tk = is_cancel w ∧
    _recall_msg (task_message_id tk) (task_coro tk) w = Some (pos, logs) ∧
    s' = Loop (<[t := Task (task_message_id tk) pos false (remove_on_done tk)]>
                 (tasks s))
           (recall_tasks s)
           (if done (Task (task_message_id tk) pos false (remove_on_done tk))
               && remove_on_done tk
            then {[t]} ∪ callbacks s else callbacks s)
           (gathering s).
Proof.
  unfold wake_task. destruct (tasks s !! t) as [tk|] eqn:Htk; [|done].
  case_bool_decide as Hc; [|done].
  destruct (_recall_msg _ _ w) as [[pos logs']|] eqn:Hstep; [|done].
  intros [= <- <-]. exists tk, pos. repeat split; try done.
  apply recall_msg_resumable in Hstep. unfold done.
  by destruct Hstep as [-> | [-> | ->]].
Qed.

Lemma initial_inv : loop_inv initial.
Proof.
  split; simpl.
  - intros t Ht. by apply not_elem_of_empty in Ht.
  - intros t Ht. by apply not_elem_of_empty in Ht.
  - intros t tk. by rewrite lookup_empty.
Qed.

Lemma schedule_recall_eq message_id s :
  schedule_recall message_id s =
    Loop (<[new_handle s := Task message_id NotStarted false true]> (tasks s))
         ({[new_handle s]} ∪ recall_tasks s) (callbacks s) (gathering s).
Proof.
  unfold schedule_recall, create_task, recall_tasks_add, add_done_callback, is_done.
  cbn [tasks recall_tasks callbacks gathering].
  by rewrite lookup_insert_eq, alter_insert_eq.
Qed.

Lemma schedule_recall_inv message_id s :
  loop_inv s → loop_inv (schedule_recall message_id s).
Proof.
  intros [Hreg Hcb Hrm]. pose proof (new_handle_fresh s) as Hfresh.
  split; rewrite schedule_recall_eq; simpl.
  - intros t [->%elem_of_singleton | Ht]%elem_of_union.
    + rewrite lookup_insert_eq. eexists. split; [done|]. done.
    + destruct (Hreg t Ht) as (tk & Htk & Hd).
      rewrite lookup_insert_ne by congruence. eauto.
  - intros t Ht. specialize (Hcb t Ht).
    apply is_done_true in Hcb as (tk & Htk & Hd). apply is_done_true.
    exists tk. split; [|done]. simpl. rewrite lookup_insert_ne by congruence. done.
  - intros t tk. rewrite lookup_insert.
    case_decide; [by intros [= <-]|]. apply Hrm.
Qed.

Lemma schedule_from_send_cases r s :
  (schedule_from_send r s).1 = s ∨
  ∃ message_id, message_id ≠ 0 ∧ sent_message_id r = Some message_id ∧
                (schedule_from_send r s).1 = schedule_recall message_id s.
Proof.
  unfold schedule_from_send. destruct (sent_message_id r) as [i|]; [|by left].
  unfold int_truthy. destruct (Z.eqb_spec i 0); simpl; [by left|].
  right. by exists i.
Qed.

Lemma intercept_cases conf ev env s :
  (intercept_and_recall conf ev env s).1.1 = s ∨
  ∃ message_id, message_id ≠ 0 ∧
    sent_message_id (send_outcome env) = Some message_id ∧
    (intercept_and_recall conf ev env s).1.1 = schedule_recall message_id s.
Proof.
  destruct (intercept_state_cases conf ev env s) as [H|H]; [by left|].
  rewrite H. apply schedule_from_send_cases.
Qed.

Lemma wake_task_inv t w s s' logs :
  wake_task t w s = Some (s', logs) → loop_inv s → loop_inv s'.
Proof.
  intros (tk & pos & Htk & Hnd & _ & _ & ->)%wake_task_Some [Hreg Hcb Hrm].
  pose proof (Hrm t tk Htk) as Hr. rewrite Hr, andb_true_r.
  split; simpl.
  - intros t' Ht'. destruct (Hreg t' Ht') as (tk' & Htk' & Hd').
    destruct (decide (t = t')) as [<-|Hne].
    + rewrite lookup_insert_eq. eexists. split; [done|].
      intros ->. apply elem_of_union_l. by apply elem_of_singleton.
    + rewrite lookup_insert_ne by done. exists tk'. split; [done|].
      intros Hd. specialize (Hd' Hd).
      destruct (done (Task _ pos false true)); [by apply elem_of_union_r | done].
  - intros t' Ht'. apply is_done_true. simpl.
    destruct (decide (t = t')) as [<-|Hne].
    + rewrite lookup_insert_eq. eexists. split; [done|].
      destruct (done (Task _ pos false true)) eqn:Hd; [done|].
      specialize (Hcb t Ht'). rewrite (is_done_lookup _ _ _ Htk) in Hcb. congruence.
    + rewrite lookup_insert_ne by done. apply is_done_true, Hcb.
      destruct (done (Task _ pos false true)); [|done].
      apply elem_of_union in Ht' as [Ht'%elem_of_singleton | Ht']; [congruence | done].
  - intros t' tk'. rewrite lookup_insert.
    case_decide; [by intros [= <-]|]. apply Hrm.
Qed.

Lemma remove_task_inv t s : loop_inv s → loop_inv (_remove_task t s).
Proof.
  intros [Hreg Hcb Hrm]. split; simpl.
  - intros t' [Ht' Hne%not_elem_of_singleton]%elem_of_difference.
    destruct (Hreg t' Ht') as (tk & Htk & Hd). exists tk. split; [done|].
    intros H. specialize (Hd H). apply elem_of_difference. split; [done|].
    by apply not_elem_of_singleton.
  - intros t' [Ht' _]%elem_of_difference. by apply Hcb.
  - done.
Qed.

Lemma terminate_cancel_all_lookup s t :
  tasks (terminate_cancel_all s) !! t =
    (λ tk, if bool_decide (t ∈ recall_tasks s) && negb (done tk)
           then cancel tk else tk) <$> tasks s !! t.
Proof.
  unfold terminate_cancel_all. simpl. rewrite map_lookup_imap.
  by destruct (tasks s !! t).
Qed.

Lemma terminate_cancel_all_is_done s t :
  is_done (terminate_cancel_all s) t = is_done s t.
Proof.
  unfold is_done. rewrite terminate_cancel_all_lookup.
  destruct (tasks s !! t) as [tk|]; [|done]. simpl.
  by destruct (bool_decide _ && negb _).
Qed.

Lemma terminate_cancel_all_inv s : loop_inv s → loop_inv (terminate_cancel_all s).
Proof.
  intros [Hreg Hcb Hrm]. split.
  - intros t Ht. destruct (Hreg t Ht) as (tk & Htk & Hd).
    rewrite terminate_cancel_all_lookup, Htk. simpl. eexists. split; [done|].
    by destruct (bool_decide _ && negb _).
  - intros t Ht. rewrite terminate_cancel_all_is_done. by apply Hcb.
  - intros t tk. rewrite terminate_cancel_all_lookup.
    destruct (tasks s !! t) as [tk0|] eqn:Htk; [|done]. simpl.
    intros [= <-]. specialize (Hrm t tk0 Htk).
    by destruct (bool_decide _ && negb _).
Qed.

Lemma terminate_clear_inv s : loop_inv s → loop_inv (terminate_clear s).
Proof.
  intros [Hreg Hcb Hrm]. split; simpl; [|done..].
  intros t Ht. by apply not_elem_of_empty in Ht.
Qed.

Lemma loop_step_inv l s s' : loop_step l s = Some s' → loop_inv s → loop_inv s'.
Proof.
  destruct l as [conf ev env|t w|t| |]; simpl.
  - intros [= <-] Hinv.
    destruct (intercept_cases conf ev env s) as [-> | (i & _ & _ & ->)]; [done|].
    by apply schedule_recall_inv.
  - destruct (wake_task t w s) as [[s1 logs]|] eqn:Hw; [|done].
    intros [= <-]. by eapply wake_task_inv.
  - case_bool_decide; [|done]. intros [= <-]. apply remove_task_inv.
  - destruct (gathering s); [done|]. intros [= <-]. apply terminate_cancel_all_inv.
  - destruct (gathering s) as [children|]; [|done].
    destruct (gathered s children); [|done]. intros [= <-]. apply terminate_clear_inv.
Qed.

Lemma run_app ls1 ls2 s :
  run (ls1 ++ ls2) s = run ls1 s ≫= run ls2.
Proof.
  revert s. induction ls1 as [|l ls1 IH]; intros s; simpl; [done|].
  destruct (loop_step l s); [apply IH | done].
Qed.

Lemma run_inv ls s s' : run ls s = Some s' → loop_inv s → loop_inv s'.
Proof.
  revert s. induction ls as [|l ls IH]; intros s; simpl.
  - by intros [= <-].
  - destruct (loop_step l s) as [s1|] eqn:Hstep; [|done].
    intros Hrun Hinv. eapply IH; [done|]. by eapply loop_step_inv.
Qed.

Lemma reachable_inv s : reachable s → loop_inv s.
Proof. intros [ls Hrun]. eapply run_inv; [done | apply initial_inv]. Qed.


(** ** Handles enter and leave the registry *)

Lemma schedule_recall_registers message_id s :
  tasks s !! new_handle s = None
  ∧ tasks (schedule_recall message_id s) !! new_handle s
      = Some (Task message_id NotStarted false true)
  ∧ new_handle s ∈ recall_tasks (schedule_recall message_id s).
Proof.
  split; [apply new_handle_fresh|]. rewrite schedule_recall_eq. simpl.
  split; [apply lookup_insert_eq|].
  apply elem_of_union_l. by apply elem_of_singleton.
Qed.

Lemma wake_task_finish t w s s' logs :
  loop_inv s → wake_task t w s = Some (s', logs) → is_done s' t = true →
  t ∈ callbacks s' ∧ t ∉ recall_tasks (_remove_task t s').
Proof.
  intros [_ _ Hrm] (tk & pos & Htk & _ & _ & _ & ->)%wake_task_Some.
  rewrite (Hrm t tk Htk), andb_true_r. unfold is_done. simpl.
  rewrite lookup_insert_eq. intros ->. split.
  - apply elem_of_union_l. by apply elem_of_singleton.
  - intros [_ Hne]%elem_of_difference. by apply Hne, elem_of_singleton.
Qed.

Lemma registry_leaves l s s' t :
  loop_inv s → loop_step l s = Some s' →
  t ∈ recall_tasks s → t ∉ recall_tasks s' →
  (l = DoneCallback t ∧ is_done s t = true) ∨ l = TerminateClear.
Proof.
  intros [Hreg Hcb Hrm] Hstep Hin Hout.
  destruct l as [conf ev env|t0 w|t0| |]; simpl in Hstep; [..|by right].
  - injection Hstep as <-. exfalso.
    destruct (intercept_cases conf ev env s) as [Heq | (i & _ & _ & Heq)];
      rewrite Heq in Hout; [done|].
    rewrite schedule_recall_eq in Hout. simpl in Hout.
    by apply Hout, elem_of_union_r.
  - destruct (wake_task t0 w s) as [[s1 logs]|] eqn:Hw; [|done].
    injection Hstep as <-.
    apply wake_task_Some in Hw as (tk & pos & _ & _ & _ & _ & ->). done.
  - case_bool_decide as Hcbq; [|done]. injection Hstep as <-. simpl in Hout.
    destruct (decide (t = t0)) as [->|Hne].
    + left. split; [done|]. by apply Hcb.
    + exfalso. apply Hout, elem_of_difference. split; [done|].
      by apply not_elem_of_singleton.
  - destruct (gathering s); [done|]. injection Hstep as <-. done.
Qed.

Lemma loop_step_pending l s s' :
  l ≠ TerminateClear → loop_inv s → pending_registered s →
  loop_step l s = Some s' → pending_registered s'.
Proof.
  intros Hl [Hreg Hcb Hrm] Hpend Hstep t' tk'.
  destruct l as [conf ev env|t w|t| |]; simpl in Hstep; [..|done].
  - injection Hstep as <-.
    destruct (intercept_cases conf ev env s) as [-> | (i & _ & _ & ->)];
      [apply Hpend|].
    rewrite schedule_recall_eq. simpl. rewrite lookup_insert.
    case_decide as Ht.
    { subst t'. intros _ _. apply elem_of_union_l. by apply elem_of_singleton. }
    intros Htk Hd. apply elem_of_union_r. by eapply Hpend.
  - destruct (wake_task t w s) as [[s1 logs]|] eqn:Hw; [|done].
    injection Hstep as <-.
    apply wake_task_Some in Hw as (tk & pos & Htk & Hnd & _ & _ & ->). simpl.
    rewrite lookup_insert. case_decide as Ht.
    + subst t'. intros _ _. by eapply Hpend.
    + apply Hpend.
  - case_bool_decide as Hcbq; [|done]. injection Hstep as <-. simpl.
    intros Htk Hd. apply elem_of_difference. split; [by eapply Hpend|].
    intros ->%elem_of_singleton. specialize (Hcb t Hcbq).
    rewrite (is_done_lookup _ _ _ Htk) in Hcb. congruence.
  - destruct (gathering s); [done|]. injection Hstep as <-.
    rewrite terminate_cancel_all_lookup.
    destruct (tasks s !! t') as [tk0|] eqn:Htk0; [|done]. simpl.
    intros [= <-] Hd. apply (Hpend t' tk0 Htk0).
    by destruct (bool_decide _ && negb _).
Qed.

Lemma run_pending ls s s' :
  TerminateClear ∉ ls → loop_inv s → pending_registered s →
  run ls s = Some s' → pending_registered s'.
Proof.
  revert s. induction ls as [|l ls IH]; intros s Hnc Hinv Hpend; simpl.
  - by intros [= <-].
  - destruct (loop_step l s) as [s1|] eqn:Hstep; [|done].
    apply not_elem_of_cons in Hnc as [Hl Hnc]. intros Hrun.
    eapply (IH s1); [done| |  |done].
    + by eapply loop_step_inv.
    + eapply loop_step_pending; [| | |exact Hstep]; done.
Qed.

(** C2, as the event loop has it.  In every state reached from the empty
    registry: a handle in [recall_tasks] is a task that has not completed,
    or has completed with its [_remove_task] callback still queued on the
    loop (so a completed task can be present until the callback runs);
    whichever way a task finishes, the callback is queued and its run
    removes the handle; a task is registered in the step that creates it,
    before its coroutine has started; a handle leaves the registry only by
    its own callback or by [clear()] in [terminate]; and as long as no
    [clear()] ran, every task that has not completed is in the registry. *)
Theorem registry_invariant ls s :
  run ls initial = Some s →
  (∀ t, t ∈ recall_tasks s →
     ∃ tk, tasks s !! t = Some tk ∧ (done tk = true → t ∈ callbacks s))
  ∧ (∀ t w s' logs, wake_task t w s = Some (s', logs) → is_done s' t = true →
       t ∈ callbacks s' ∧ t ∉ recall_tasks (_remove_task t s'))
  ∧ (∀ message_id,
       tasks s !! new_handle s = None
       ∧ tasks (schedule_recall message_id s) !! new_handle s
           = Some (Task message_id NotStarted false true)
       ∧ new_handle s ∈ recall_tasks (schedule_recall message_id s))
  ∧ (∀ l s' t, loop_step l s = Some s' →
       t ∈ recall_tasks s → t ∉ recall_tasks s' →
       (l = DoneCallback t ∧ is_done s t = true) ∨ l = TerminateClear)
  ∧ (TerminateClear ∉ ls →
       ∀ t tk, tasks s !! t = Some tk → done tk = false → t ∈ recall_tasks s).
Proof.
  intros Hrun.
  assert (loop_inv s) as Hinv by (eapply run_inv; [done | apply initial_inv]).
  split; [apply Hinv|]. split; [intros t w s' logs; by apply wake_task_finish|].
  split; [intros message_id; apply schedule_recall_registers|].
  split; [intros l s' t; by apply registry_leaves|].
  intros Hnc. eapply run_pending; [done | apply initial_inv | | done].
  intros t tk. simpl. by rewrite lookup_empty.
Qed.


(** ** Teardown *)

Lemma settle_cases t s :
  (∃ tk, tasks s !! t = Some tk ∧ done tk = false ∧ must_cancel tk = true ∧
     let s1 := Loop (<[t := Task (task_message_id tk) Cancelled false
                             (remove_on_done tk)]> (tasks s))
                 (recall_tasks s)
                 (if remove_on_done tk then {[t]} ∪ callbacks s else callbacks s)
                 (gathering s) in
     loop_step (Wake t Cancel) s = Some s1 ∧
     settle t s = default s1 (loop_step (DoneCallback t) s1))
  ∨ (loop_step (Wake t Cancel) s = None ∧
     (∀ tk, tasks s !! t = Some tk → done tk = true ∨ must_cancel tk = false) ∧
     settle t s = default s (loop_step (DoneCallback t) s)).
Proof.
  unfold settle. cbn [loop_step]. unfold wake_task.
  destruct (tasks s !! t) as [tk|] eqn:Htk; [|right; by repeat split].
  cbn [is_cancel]. case_bool_decide as Hc.
  - destruct (done tk) eqn:Hd.
    + right. assert (_recall_msg (task_message_id tk) (task_coro tk) Cancel = None)
        as -> by (unfold done in Hd; by destruct (task_coro tk)).
      split; [done|]. split; [|done]. intros ? [= <-]. by left.
    + left. exists tk. split; [done|]. split; [done|]. split; [done|].
      assert (_recall_msg (task_message_id tk) (task_coro tk) Cancel
                = Some (Cancelled, [])) as ->.
      { apply recall_msg_cancel. unfold done in Hd.
        destruct (task_coro tk); auto; done. }
      cbn. done.
  - right. split; [done|]. split; [|done]. intros ? [= <-]. right.
    by destruct (must_cancel tk).
Qed.

Lemma difference_queued (t : nat) (R C : gset nat) :
  t ∈ C → R ∖ (C ∩ {[t]}) = R ∖ {[t]}.
Proof. set_solver. Qed.

Lemma difference_not_queued (t : nat) (R C : gset nat) :
  t ∉ C → R ∖ (C ∩ {[t]}) = R ∧ C ∖ {[t]} = C.
Proof. set_solver. Qed.

Lemma done_callback_default t s :
  default s (loop_step (DoneCallback t) s) =
    Loop (tasks s) (recall_tasks s ∖ (callbacks s ∩ {[t]})) (callbacks s ∖ {[t]})
      (gathering s).
Proof.
  cbn [loop_step]. case_bool_decide as Hin.
  - rewrite (difference_queued t _ _ Hin). done.
  - destruct (difference_not_queued t (recall_tasks s) (callbacks s) Hin) as [-> ->].
    by destruct s.
Qed.

Lemma settle_run t s : ∃ ls, run ls s = Some (settle t s).
Proof.
  destruct (settle_cases t s) as [(tk & _ & _ & _ & Hw & ->) | (_ & _ & ->)].
  - cbn zeta in Hw. set (s1 := Loop _ _ _ _) in *.
    destruct (loop_step (DoneCallback t) s1) as [s2|] eqn:Hcb.
    + exists [Wake t Cancel; DoneCallback t]. cbn [run]. by rewrite Hw, Hcb.
    + exists [Wake t Cancel]. cbn [run]. by rewrite Hw.
  - destruct (loop_step (DoneCallback t) s) as [s2|] eqn:Hcb.
    + exists [DoneCallback t]. cbn [run]. by rewrite Hcb.
    + by exists [].
Qed.

Lemma settle_gathering t s : gathering (settle t s) = gathering s.
Proof.
  destruct (settle_cases t s) as [(tk & _ & _ & _ & _ & ->) | (_ & _ & ->)];
    by rewrite done_callback_default.
Qed.

Lemma settle_other t t' s :
  t' ≠ t →
  tasks (settle t s) !! t' = tasks s !! t'
  ∧ (t' ∈ callbacks (settle t s) ↔ t' ∈ callbacks s).
Proof.
  intros Hne.
  destruct (settle_cases t s) as [(tk & _ & _ & _ & _ & ->) | (_ & _ & ->)];
    rewrite done_callback_default; cbn [tasks callbacks].
  - rewrite lookup_insert_ne by done. split; [done|].
    rewrite elem_of_difference, elem_of_singleton.
    destruct (remove_on_done tk); [rewrite elem_of_union, elem_of_singleton|]; tauto.
  - split; [done|]. rewrite elem_of_difference, elem_of_singleton. tauto.
Qed.

Lemma settle_done_kept t t' s tk :
  tasks s !! t' = Some tk → done tk = true → tasks (settle t s) !! t' = Some tk.
Proof.
  intros Htk Hd. destruct (decide (t' = t)) as [->|Hne];
    [|by rewrite (proj1 (settle_other t t' s Hne))].
  destruct (settle_cases t s) as [(tk0 & Htk0 & Hd0 & _) | (_ & _ & ->)].
  - congruence.
  - by rewrite done_callback_default.
Qed.

Lemma settle_self t s :
  settles s t →
  is_done (settle t s) t = true ∧ (t ∉ callbacks (settle t s))
  ∧ (∀ tk, tasks s !! t = Some tk → done tk = false →
       ∃ tk', tasks (settle t s) !! t = Some tk' ∧ task_coro tk' = Cancelled).
Proof.
  intros (tk & Htk & Hrm & Hstate).
  destruct (settle_cases t s) as [(tk0 & Htk0 & Hd0 & Hc0 & _ & ->) | (_ & Hno & ->)];
    rewrite done_callback_default; unfold is_done; cbn [tasks callbacks].
  - rewrite lookup_insert_eq. split; [done|]. split.
    + rewrite elem_of_difference, elem_of_singleton. tauto.
    + intros ? _ _. by eexists.
  - rewrite Htk. destruct (Hno tk Htk) as [Hd|Hc].
    + split; [done|]. split.
      * rewrite elem_of_difference, elem_of_singleton. tauto.
      * intros ? [= <-] ?. congruence.
    + destruct Hstate as [Hd|Hc']; [|congruence].
      split; [done|]. split.
      * rewrite elem_of_difference, elem_of_singleton. tauto.
      * intros ? [= <-] ?. congruence.
Qed.

Lemma settle_settles t t' s : settles s t' → settles (settle t s) t'.
Proof.
  intros Hs. destruct (decide (t' = t)) as [->|Hne].
  - destruct (settle_self t s Hs) as (Hd & _ & _).
    apply is_done_true in Hd as (tk' & Htk' & Hd').
    destruct Hs as (tk & Htk & Hrm & _).
    exists tk'. split; [done|]. split; [|by left].
    destruct (settle_cases t s) as [(tk0 & Htk0 & _ & _ & _ & Heq) | (_ & _ & Heq)];
      rewrite Heq, done_callback_default in Htk'; cbn [tasks] in Htk'.
    + rewrite lookup_insert_eq in Htk'. injection Htk' as <-. cbn. congruence.
    + congruence.
  - destruct Hs as (tk & Htk & Hrest). exists tk.
    by rewrite (proj1 (settle_other t t' s Hne)).
Qed.

Lemma foldr_settle_untouched l s t :
  t ∉ l → tasks (foldr settle s l) !! t = tasks s !! t.
Proof.
  induction l as [|t1 l IH]; cbn [foldr]; [done|].
  intros [Hne Hnotin]%not_elem_of_cons.
  rewrite (proj1 (settle_other t1 t _ Hne)). by apply IH.
Qed.

(** After the children of a list have settled, each of them is done and its
    callback has run; the settling is a run of the loop's own steps. *)
Lemma foldr_settle_spec l s :
  (∀ t, t ∈ l → settles s t) →
  let s2 := foldr settle s l in
  gathering s2 = gathering s
  ∧ (∃ ls, run ls s = Some s2)
  ∧ (∀ t, settles s t → settles s2 t)
  ∧ (∀ t tk, tasks s !! t = Some tk → done tk = true → tasks s2 !! t = Some tk)
  ∧ (∀ t, t ∈ l → is_done s2 t = true ∧ t ∉ callbacks s2)
  ∧ (∀ t tk, t ∈ l → tasks s !! t = Some tk → done tk = false →
       ∃ tk', tasks s2 !! t = Some tk' ∧ task_coro tk' = Cancelled).
Proof.
  induction l as [|t0 l IH]; intros Hl; cbn [foldr].
  - split; [done|]. split; [by exists []|]. split; [done|]. split; [done|].
    split; intros t; [|intros tk]; by intros ?%elem_of_nil.
  - destruct IH as (Hg & [ls Hrun] & Hset & Hkept & Hdone & Hcanc).
    { intros t Ht. apply Hl. by right. }
    set (x := foldr settle s l) in *.
    assert (settles x t0) as Hx by (apply Hset, Hl; by left).
    destruct (settle_self t0 x Hx) as (Hd0 & Hcb0 & Hc0).
    split; [by rewrite settle_gathering|]. split.
    { destruct (settle_run t0 x) as [ls' Hrun'].
      exists (ls ++ ls'). rewrite run_app, Hrun. done. }
    split; [intros t Ht; by apply settle_settles, Hset|].
    split.
    { intros t tk Htk Hd. eapply settle_done_kept; [by eapply Hkept | done]. }
    split.
    + intros t [->|Ht]%elem_of_cons; [done|].
      destruct (decide (t = t0)) as [->|Hne]; [done|].
      destruct (Hdone t Ht) as [Hd Hcb].
      apply is_done_true in Hd as (tk & Htk & Hd). split.
      * apply is_done_true. exists tk. split; [|done]. by eapply settle_done_kept.
      * by rewrite (proj2 (settle_other t0 t x Hne)).
    + intros t tk Ht Htk Hnd.
      assert (t ∈ l → ∃ tk', tasks (settle t0 x) !! t = Some tk'
                              ∧ task_coro tk' = Cancelled) as Hin.
      { intros Hin. destruct (Hcanc t tk Hin Htk Hnd) as (tk' & Htk' & Hc').
        exists tk'. split; [|done]. eapply settle_done_kept; [done|].
        unfold done. by rewrite Hc'. }
      destruct (decide (t ∈ l)) as [?|Hnotin]; [by apply Hin|].
      apply elem_of_cons in Ht as [->|?]; [|done].
      apply (Hc0 tk); [|done].
      unfold x. by rewrite foldr_settle_untouched.
Qed.


Lemma terminate_cancel_all_settles s t :
  loop_inv s → t ∈ recall_tasks s → settles (terminate_cancel_all s) t.
Proof.
  intros [Hreg _ Hrm] Ht. destruct (Hreg t Ht) as (tk & Htk & _).
  unfold settles. rewrite terminate_cancel_all_lookup, Htk. cbn [fmap option_fmap option_map].
  rewrite bool_decide_true by done. cbn [andb].
  pose proof (Hrm t tk Htk) as Hr.
  destruct (done tk) eqn:Hd; cbn [negb]; eexists; (split; [done|]).
  - split; [done|]. by left.
  - split; [done|]. by right.
Qed.

Lemma terminate_cancel_all_empty s :
  recall_tasks s = ∅ → tasks (terminate_cancel_all s) = tasks s.
Proof.
  intros Hempty. apply map_eq. intros t. rewrite terminate_cancel_all_lookup.
  destruct (tasks s !! t) as [tk|]; [|done]. cbn.
  rewrite Hempty, bool_decide_false; [done|]. apply not_elem_of_empty.
Qed.

(** With nothing registered and no teardown pending, [terminate] changes
    nothing. *)
Lemma terminate_empty s :
  recall_tasks s = ∅ → gathering s = None → terminate s = s.
Proof.
  intros Hempty Hg. unfold terminate. rewrite Hempty, elements_empty. cbn [foldr].
  unfold terminate_clear.
  change (callbacks (terminate_cancel_all s)) with (callbacks s).
  rewrite <- Hempty, terminate_cancel_all_empty by done.
  destruct s; cbn in *. by subst.
Qed.

(** The second half of [terminate], whatever else the loop ran during the
    wait: it runs once every awaited task is done and leaves the registry
    empty. *)
Lemma terminate_clear_step x x' children :
  gathering x = Some children → loop_step TerminateClear x = Some x' →
  recall_tasks x' = ∅ ∧ ∀ t, t ∈ children → is_done x' t = true.
Proof.
  intros Hg. cbn [loop_step]. rewrite Hg.
  destruct (gathered x children) eqn:Hgathered; [|done]. intros [= <-].
  split; [done|]. intros t Ht.
  apply bool_decide_eq_true in Hgathered. by destruct (Hgathered t Ht).
Qed.

(** A task that is done stays done, whatever the loop runs. *)
Lemma loop_step_done_kept l s s' t :
  loop_step l s = Some s' → is_done s t = true → is_done s' t = true.
Proof.
  intros Hstep (tk & Htk & Hd)%is_done_true.
  destruct l as [conf ev env|t0 w|t0| |]; cbn [loop_step] in Hstep.
  - injection Hstep as <-. apply is_done_true. exists tk. split; [|done].
    destruct (intercept_cases conf ev env s) as [-> | (i & _ & _ & ->)]; [done|].
    rewrite schedule_recall_eq. cbn [tasks].
    rewrite lookup_insert_ne; [done|].
    intros Heq. rewrite <- Heq, new_handle_fresh in Htk. done.
  - destruct (wake_task t0 w s) as [[s1 logs]|] eqn:Hw; [|done].
    injection Hstep as <-.
    apply wake_task_Some in Hw as (tk0 & pos & Htk0 & Hd0 & _ & _ & ->).
    apply is_done_true. exists tk. split; [|done]. cbn [tasks].
    rewrite lookup_insert_ne; [done|]. intros ->. congruence.
  - case_bool_decide; [|done]. injection Hstep as <-.
    apply is_done_true. by exists tk.
  - destruct (gathering s); [done|]. injection Hstep as <-.
    rewrite terminate_cancel_all_is_done. apply is_done_true. by exists tk.
  - destruct (gathering s) as [children|]; [|done].
    destruct (gathered s children); [|done]. injection Hstep as <-.
    apply is_done_true. by exists tk.
Qed.

(** While [terminate] waits for [children], it is still waiting for them
    or all of them are done: the wait only ends through the clearing step,
    which is enabled once they are. *)
Lemma loop_step_awaited l s s' (children : gset nat) :
  loop_step l s = Some s' →
  gathering s = Some children ∨ (∀ t, t ∈ children → is_done s t = true) →
  gathering s' = Some children ∨ (∀ t, t ∈ children → is_done s' t = true).
Proof.
  intros Hstep [Hg|Hdone].
  - destruct l as [conf ev env|t0 w|t0| |]; cbn [loop_step] in Hstep.
    + injection Hstep as <-. left.
      destruct (intercept_cases conf ev env s) as [-> | (i & _ & _ & ->)]; [done|].
      by rewrite schedule_recall_eq.
    + destruct (wake_task t0 w s) as [[s1 logs]|] eqn:Hw; [|done].
      injection Hstep as <-.
      apply wake_task_Some in Hw as (tk0 & pos & _ & _ & _ & _ & ->). by left.
    + case_bool_decide; [|done]. injection Hstep as <-. by left.
    + by rewrite Hg in Hstep.
    + rewrite Hg in Hstep.
      destruct (gathered s children) eqn:Hgathered; [|done]. injection Hstep as <-.
      right. intros t Ht. apply bool_decide_eq_true in Hgathered.
      by destruct (Hgathered t Ht).
  - right. intros t Ht. eapply loop_step_done_kept; [done|]. by apply Hdone.
Qed.

Lemma run_awaited ls s s' (children : gset nat) :
  run ls s = Some s' →
  gathering s = Some children ∨ (∀ t, t ∈ children → is_done s t = true) →
  gathering s' = Some children ∨ (∀ t, t ∈ children → is_done s' t = true).
Proof.
  revert s. induction ls as [|l ls IH]; intros s; cbn [run].
  - by intros [= <-].
  - destruct (loop_step l s) as [s1|] eqn:Hstep; [|done]. intros Hrun Hs.
    apply (IH s1 Hrun). by eapply loop_step_awaited.
Qed.

(** [terminate] does not get past its await before every task that was in
    the registry when it started is done, whatever the loop runs in
    between. *)
Lemma terminate_waits_for_registry s mid x x' :
  run mid (terminate_cancel_all s) = Some x →
  loop_step TerminateClear x = Some x' →
  recall_tasks x' = ∅
  ∧ ∀ t, t ∈ recall_tasks s → is_done x t = true ∧ is_done x' t = true.
Proof.
  intros Hrun Hclear.
  assert (∀ t, t ∈ recall_tasks s → is_done x t = true) as Hdone.
  { destruct (run_awaited mid (terminate_cancel_all s) x (recall_tasks s) Hrun)
      as [Hg|Hdone]; [by left | | done].
    intros t Ht. cbn [loop_step] in Hclear. rewrite Hg in Hclear.
    destruct (gathered x (recall_tasks s)) eqn:Hgathered; [|done].
    apply bool_decide_eq_true in Hgathered. by destruct (Hgathered t Ht). }
  split.
  - cbn [loop_step] in Hclear. destruct (gathering x) as [children|]; [|done].
    by destruct (gathered x children); [injection Hclear as <-|].
  - intros t Ht. split; [by apply Hdone|].
    eapply loop_step_done_kept; [done|]. by apply Hdone.
Qed.

(** C5. From any reachable state with no teardown in progress, whatever the
    number of tasks in the registry: [terminate] cancels each task of the
    registry that is not done, every task of the registry is done when the
    wait ends (the cancelled ones as [Cancelled], which does not stop the
    teardown), and the registry is left empty.  The whole teardown is a run
    of the loop's steps.  Called again it changes nothing, and with an empty
    registry it changes nothing.  Also when other steps of the loop run
    during the wait, the clearing half runs only once the awaited tasks are
    done and leaves the registry empty.  The tasks awaited are exactly those
    of the registry at the call, and however the loop runs during the wait,
    [terminate] gets to its clearing half only when every one of them is
    done, whether it returned, was cancelled or failed. *)
Theorem terminate_drains ls s :
  run ls initial = Some s → gathering s = None →
  (∃ steps, run steps s = Some (terminate s))
  ∧ (∀ t tk, t ∈ recall_tasks s → tasks s !! t = Some tk → done tk = false →
       ∃ tk', tasks (terminate_cancel_all s) !! t = Some tk' ∧ must_cancel tk' = true)
  ∧ (∀ t, t ∈ recall_tasks s → is_done (terminate s) t = true)
  ∧ (∀ t tk, t ∈ recall_tasks s → tasks s !! t = Some tk → done tk = false →
       ∃ tk', tasks (terminate s) !! t = Some tk' ∧ task_coro tk' = Cancelled)
  ∧ recall_tasks (terminate s) = ∅
  ∧ terminate (terminate s) = terminate s
  ∧ (recall_tasks s = ∅ → terminate s = s)
  ∧ (∀ x x' children, gathering x = Some children →
       loop_step TerminateClear x = Some x' →
       recall_tasks x' = ∅ ∧ ∀ t, t ∈ children → is_done x' t = true)
  ∧ (loop_step TerminateCancel s = Some (terminate_cancel_all s)
     ∧ gathering (terminate_cancel_all s) = Some (recall_tasks s))
  ∧ (∀ mid x x', run mid (terminate_cancel_all s) = Some x →
       loop_step TerminateClear x = Some x' →
       recall_tasks x' = ∅
       ∧ ∀ t, t ∈ recall_tasks s → is_done x t = true ∧ is_done x' t = true).
Proof.
  intros Hrun Hidle.
  assert (loop_inv s) as Hinv by (eapply run_inv; [done | apply initial_inv]).
  set (s1 := terminate_cancel_all s).
  assert (∀ t, t ∈ elements (recall_tasks s) → settles s1 t) as Hchildren.
  { intros t Ht%elem_of_elements. by apply terminate_cancel_all_settles. }
  destruct (foldr_settle_spec _ _ Hchildren)
    as (Hg & [steps Hsteps] & _ & _ & Hdone & Hcanc).
  fold s1 in Hg, Hsteps, Hdone, Hcanc.
  set (s2 := foldr settle s1 (elements (recall_tasks s))) in *.
  assert (∀ t tk, t ∈ recall_tasks s → tasks s !! t = Some tk → done tk = false →
            ∃ tk', tasks s1 !! t = Some tk' ∧ done tk' = false ∧ must_cancel tk' = true)
    as Hcancelled.
  { intros t tk Ht Htk Hd. unfold s1.
    rewrite terminate_cancel_all_lookup, Htk. cbn.
    rewrite bool_decide_true, Hd by done. cbn. eexists. split; [done|]. by split. }
  split; [|split; [|split; [|split; [|split; [|split; [|split; [|split; [|split]]]]]]]].
  - exists (TerminateCancel :: steps ++ [TerminateClear]).
    cbn [run loop_step]. rewrite Hidle. fold s1.
    rewrite run_app, Hsteps. cbn [mbind option_bind run loop_step].
    rewrite Hg. cbn [gathering s1 terminate_cancel_all].
    assert (gathered s2 (recall_tasks s) = true) as ->; [|done].
    apply bool_decide_eq_true. intros t Ht. apply Hdone. by apply elem_of_elements.
  - intros t tk Ht Htk Hd.
    destruct (Hcancelled t tk Ht Htk Hd) as (tk' & Htk' & _ & Hc). eauto.
  - intros t Ht. unfold terminate, is_done. cbn [tasks terminate_clear].
    apply elem_of_elements in Ht. by destruct (Hdone t Ht) as [Hd _].
  - intros t tk Ht Htk Hd. unfold terminate. cbn [tasks terminate_clear].
    destruct (Hcancelled t tk Ht Htk Hd) as (tk' & Htk' & Hd' & _).
    apply (Hcanc t tk'); [by apply elem_of_elements | done | done].
  - done.
  - by apply terminate_empty.
  - intros Hempty. by apply terminate_empty.
  - intros x x' children Hx. by apply terminate_clear_step.
  - split; [|done]. cbn [loop_step]. by rewrite Hidle.
  - intros mid x x'. apply terminate_waits_for_registry.
Qed.

(** * Further properties of the batch command *)

(** ** The sort *)

Lemma insert_desc_Permutation x l : insert_desc x l ≡ₚ x :: l.
Proof.
  induction l as [|y l IH]; cbn [insert_desc]; [done|].
  destruct (timestamp y <=? timestamp x); [done|].
  rewrite IH. apply Permutation_swap.
Qed.

Lemma sort_by_time_desc_Permutation l : sort_by_time_desc l ≡ₚ l.
Proof.
  induction l as [|x l IH]; [done|].
  cbn [sort_by_time_desc foldr]. rewrite insert_desc_Permutation.
  by apply Permutation_skip.
Qed.

Lemma sort_by_time_desc_sorted_id l :
  StronglySorted newer_first l → sort_by_time_desc l = l.
Proof.
  intros Hl. apply (spec_sorted_unique l); [apply sort_by_time_desc_spec|].
  by split.
Qed.

(** X16. The sort of line 257 loses and invents no entry, leaves a list that is
    already newest first as it is (ties included), and so does nothing when
    run a second time. *)
Theorem sort_keeps_entries_and_sorted_input l :
  sort_by_time_desc l ≡ₚ l
  ∧ sort_by_time_desc (sort_by_time_desc l) = sort_by_time_desc l
  ∧ (StronglySorted newer_first l → sort_by_time_desc l = l).
Proof.
  split; [apply sort_by_time_desc_Permutation|].
  split; [|apply sort_by_time_desc_sorted_id].
  apply sort_by_time_desc_sorted_id, sort_by_time_desc_sorted.
Qed.

(** ** The digit runs *)

Lemma findall_digits_cons_decimal c s :
  is_decimal c = true → findall_digits (c :: s) ≠ [].
Proof.
  intros Hc. cbn [findall_digits]. rewrite Hc.
  destruct (findall_digits s); [done|].
  by destruct (opt_truthy is_decimal (head s)).
Qed.

Lemma findall_digits_nil_iff s :
  findall_digits s = [] ↔ Forall (λ c, is_decimal c = false) s.
Proof.
  induction s as [|c s IH]; [by split; [constructor|]|].
  destruct (is_decimal c) eqn:Hc.
  - split.
    + intros H. by apply findall_digits_cons_decimal in H.
    + intros H. apply Forall_cons in H as [H _]. congruence.
  - cbn [findall_digits]. rewrite Hc, IH. split.
    + by constructor.
    + by intros [_ H]%Forall_cons.
Qed.

Lemma findall_digits_runs_decimal s :
  Forall (λ run, run ≠ [] ∧ Forall (λ c, is_decimal c = true) run)
    (findall_digits s).
Proof.
  induction s as [|c s IH]; [constructor|].
  cbn [findall_digits]. destruct (is_decimal c) eqn:Hc; [|done].
  destruct (findall_digits s) as [|run runs].
  - repeat constructor; done.
  - apply Forall_cons in IH as [[Hne Hrun] Hruns].
    destruct (opt_truthy is_decimal (head s)).
    + constructor; [|done]. split; [done|]. by constructor.
    + constructor; [by repeat constructor|]. by constructor.
Qed.

Lemma findall_digits_concat s :
  concat (findall_digits s) = filter (λ c, is_decimal c = true) s.
Proof.
  induction s as [|c s IH]; [done|].
  rewrite filter_cons. cbn [findall_digits].
  destruct (is_decimal c) eqn:Hc.
  - rewrite decide_True by done. rewrite <- IH.
    destruct (findall_digits s) as [|run runs]; [done|].
    by destruct (opt_truthy is_decimal (head s)).
  - by rewrite decide_False by congruence.
Qed.

(** Splitting a text at a place that is not inside a digit run splits its
    digit runs. *)
Lemma findall_digits_app s1 s2 :
  opt_truthy is_decimal (last s1) && opt_truthy is_decimal (head s2) = false →
  findall_digits (s1 ++ s2) = findall_digits s1 ++ findall_digits s2.
Proof.
  induction s1 as [|c s1 IH]; [done|]. intros Hcut.
  assert (s1 ≠ [] →
          findall_digits (s1 ++ s2) = findall_digits s1 ++ findall_digits s2) as IH'.
  { intros Hne. apply IH. destruct s1; [done|]. by rewrite last_cons_cons in Hcut. }
  cbn [app findall_digits]. destruct (is_decimal c) eqn:Hc.
  - destruct s1 as [|c' s1].
    + cbn [app findall_digits last opt_truthy] in *. rewrite Hc in Hcut.
      cbn [andb] in Hcut. rewrite Hcut.
      by destruct (findall_digits s2).
    + rewrite IH' by done. cbn [app head].
      destruct (findall_digits (c' :: s1)) as [|run runs] eqn:Hruns.
      * destruct (is_decimal c') eqn:Hc'.
        { by apply findall_digits_cons_decimal in Hruns. }
        cbn [app opt_truthy]. rewrite Hc'. by destruct (findall_digits s2).
      * cbn [app]. by destruct (opt_truthy is_decimal (Some c')).
  - destruct s1 as [|c' s1]; [done|]. by apply IH'.
Qed.

Lemma findall_digits_all_decimal d :
  d ≠ [] → Forall (λ c, is_decimal c = true) d → findall_digits d = [d].
Proof.
  induction d as [|c d IH]; [done|]. intros _ [Hc Hd]%Forall_cons.
  cbn [findall_digits]. rewrite Hc.
  destruct d as [|c' d]; [done|].
  rewrite IH by done. cbn [head opt_truthy].
  apply Forall_cons in Hd as [-> _]. done.
Qed.

(** X13. The count the command reads is the last number of the text: when the
    text ends in a non-empty digit string that is not the continuation of an
    earlier digit, that string is the last digit run.  And the digits of a
    text, in order, are exactly its digit runs put together, so no digit is
    dropped and no other character is read as one. *)
Theorem last_number_is_read pre digits :
  digits ≠ [] → Forall (λ c, is_decimal c = true) digits →
  opt_truthy is_decimal (last pre) = false →
  findall_digits (pre ++ digits) = findall_digits pre ++ [digits]
  ∧ last (findall_digits (pre ++ digits)) = Some digits
  ∧ concat (findall_digits (pre ++ digits))
      = filter (λ c, is_decimal c = true) pre ++ digits.
Proof.
  intros Hne Hdigits Hpre.
  assert (findall_digits (pre ++ digits) = findall_digits pre ++ [digits]) as Heq.
  { rewrite findall_digits_app by (by rewrite Hpre).
    by rewrite (findall_digits_all_decimal digits). }
  split; [done|]. split; [by rewrite Heq, last_snoc|].
  rewrite Heq, concat_app, findall_digits_concat. cbn. by rewrite app_nil_r.
Qed.

(** ** The keyword and the mention *)

Lemma take_length_prefix (kw s : pystr) :
  take (length kw) s = kw ↔ ∃ r, s = kw ++ r.
Proof.
  split.
  - intros H. exists (drop (length kw) s). by rewrite <- H at 1; rewrite take_drop.
  - intros [r ->]. by rewrite take_app_length.
Qed.

Lemma after_first_spec kw s :
  (∀ r, after_first kw s = Some r →
     ∃ p, s = p ++ kw ++ r
          ∧ ∀ p' r', s = p' ++ kw ++ r' → (length p ≤ length p')%nat)
  ∧ (after_first kw s = None ↔ ∀ p r, s ≠ p ++ kw ++ r).
Proof.
  induction s as [|c s [IHsome IHnone]].
  - cbn [after_first]. rewrite take_nil, drop_nil. case_bool_decide as Hkw.
    + subst kw. split.
      * intros r [= <-]. exists []. split; [done|]. intros; cbn; lia.
      * split; [done|]. intros Hno. exfalso. by apply (Hno [] []).
    + split; [done|]. split; [|done]. intros _ p r Heq.
      symmetry in Heq. apply app_eq_nil in Heq as [-> Heq].
      apply app_eq_nil in Heq as [-> _]. done.
  - cbn [after_first]. case_bool_decide as Hkw.
    + split.
      * intros r [= <-]. exists []. split; [|intros; cbn; lia].
        cbn [app]. by rewrite <- Hkw at 1; rewrite take_drop.
      * split; [done|]. intros Hno. exfalso.
        apply take_length_prefix in Hkw as [r Hr]. by apply (Hno [] r).
    + assert (∀ p' r', c :: s = p' ++ kw ++ r' →
                ∃ p'', p' = c :: p'' ∧ s = p'' ++ kw ++ r') as Hshift.
      { intros [|c' p''] r' Heq.
        - exfalso. apply Hkw, take_length_prefix. by exists r'.
        - injection Heq as -> ->. by exists p''. }
      split.
      * intros r Hr. destruct (IHsome r Hr) as (p & -> & Hleft).
        exists (c :: p). split; [done|]. intros p' r' Heq.
        destruct (Hshift p' r' Heq) as (p'' & -> & Heq').
        cbn [length]. specialize (Hleft p'' r' Heq'). lia.
      * rewrite IHnone. split.
        -- intros Hno p' r' Heq. destruct (Hshift p' r' Heq) as (p'' & -> & Heq').
           by apply (Hno p'' r').
        -- intros Hno p r ->. by apply (Hno (c :: p) r).
Qed.

(** X12. [after_first] finds the leftmost occurrence of the keyword and returns
    what follows it; it returns nothing exactly when the keyword does not
    occur, in which case the handler reads the whole text. *)
Theorem after_first_leftmost kw s :
  (∀ r, after_first kw s = Some r →
     ∃ p, s = p ++ kw ++ r
          ∧ ∀ p' r', s = p' ++ kw ++ r' → (length p ≤ length p')%nat)
  ∧ (after_first kw s = None ↔ ∀ p r, s ≠ p ++ kw ++ r).
Proof. exact (after_first_spec kw s). Qed.

(** X11. The target of the command is the first mention that is not
    at-everyone; there is no target exactly when every mention of the
    message is at-everyone. *)
Theorem find_target_first_mention messages :
  match find_target messages with
  | Some qq =>
      qq ≠ at_all ∧
      ∃ before after, messages = before ++ At qq :: after
                      ∧ ∀ q, At q ∈ before → q = at_all
  | None => ∀ q, At q ∈ messages → q = at_all
  end.
Proof.
  induction messages as [|seg messages IH]; cbn [find_target].
  - intros q Hq. by apply elem_of_nil in Hq.
  - assert (∀ seg', (∀ q, seg' ≠ At q ∨ seg' = At at_all) →
            match find_target messages with
            | Some qq =>
                qq ≠ at_all ∧
                ∃ before after, seg' :: messages = before ++ At qq :: after
                                ∧ ∀ q, At q ∈ before → q = at_all
            | None => ∀ q, At q ∈ seg' :: messages → q = at_all
            end) as Hskip.
    { intros seg' Hseg. destruct (find_target messages) as [qq|].
      - destruct IH as (Hne & before & after & -> & Hbefore). split; [done|].
        exists (seg' :: before), after. split; [done|].
        intros q [Hq|Hq]%elem_of_cons; [|by apply Hbefore].
        destruct (Hseg q) as [?|Heq]; [congruence|]. congruence.
      - intros q [Hq|Hq]%elem_of_cons; [|by apply IH].
        destruct (Hseg q) as [?|Heq]; [congruence|]. congruence. }
    destruct seg as [qq|text|].
    + case_bool_decide as Hall.
      * split; [done|]. exists [], messages. split; [done|].
        intros q Hq. by apply elem_of_nil in Hq.
      * subst qq. apply Hskip. intros q. by right.
    + apply Hskip. intros q. by left.
    + apply Hskip. intros q. by left.
Qed.

(** ** [strip] *)

Lemma lstrip_split s :
  ∃ ws, s = ws ++ lstrip s ∧ Forall (λ c, isspace c = true) ws
        ∧ opt_truthy isspace (head (lstrip s)) = false.
Proof.
  induction s as [|c s (ws & Heq & Hws & Hhead)].
  - by exists [].
  - cbn [lstrip]. destruct (isspace c) eqn:Hc.
    + exists (c :: ws). split; [by rewrite Heq at 1|]. split; [by constructor | done].
    + exists []. split; [done|]. split; [constructor|]. cbn. by rewrite Hc.
Qed.

Lemma head_reverse (l : pystr) : head (reverse l) = last l.
Proof. by rewrite <- last_reverse, reverse_involutive. Qed.

Lemma strip_split s :
  ∃ before after,
    s = before ++ strip s ++ after
    ∧ Forall (λ c, isspace c = true) before
    ∧ Forall (λ c, isspace c = true) after
    ∧ opt_truthy isspace (head (strip s)) = false
    ∧ opt_truthy isspace (last (strip s)) = false.
Proof.
  destruct (lstrip_split s) as (before & Hs & Hbefore & Hhead).
  destruct (lstrip_split (reverse (lstrip s))) as (ws & Hrev & Hws & Hlast).
  unfold strip. set (core := lstrip (reverse (lstrip s))) in *.
  assert (lstrip s = reverse core ++ reverse ws) as Hmid.
  { rewrite <- reverse_app, <- Hrev. by rewrite reverse_involutive. }
  exists before, (reverse ws). split; [by rewrite <- Hmid|].
  split; [done|]. split; [by apply Forall_reverse|].
  split.
  - rewrite Hmid in Hhead. destruct (reverse core) as [|c l]; [done|]. done.
  - by rewrite last_reverse.
Qed.

Lemma findall_digits_spaces ws :
  (∀ c, isspace c = true → is_decimal c = false) →
  Forall (λ c, isspace c = true) ws →
  findall_digits ws = []
  ∧ opt_truthy is_decimal (last ws) = false
  ∧ opt_truthy is_decimal (head ws) = false.
Proof.
  intros Hdisjoint Hws.
  assert (Forall (λ c, is_decimal c = false) ws) as Hnd.
  { eapply Forall_impl; [exact Hws|]. auto. }
  split; [by apply findall_digits_nil_iff|]. split.
  - destruct (last ws) as [c|] eqn:Hlast; [|done]. cbn.
    apply last_Some_elem_of in Hlast. by eapply Forall_forall in Hnd.
  - destruct ws as [|c ws]; [done|]. cbn. by apply Forall_cons in Hnd as [? _].
Qed.

Lemma findall_digits_strip s :
  (∀ c, isspace c = true → is_decimal c = false) →
  findall_digits (strip s) = findall_digits s.
Proof.
  intros Hdisjoint.
  destruct (strip_split s) as (before & after & Hs & Hbefore & Hafter & _ & _).
  destruct (findall_digits_spaces before Hdisjoint Hbefore) as (Hb & Hblast & _).
  destruct (findall_digits_spaces after Hdisjoint Hafter) as (Ha & _ & Hahead).
  rewrite Hs at 2.
  rewrite findall_digits_app by (by rewrite Hblast).
  rewrite findall_digits_app by (rewrite Hahead; apply andb_false_r).
  by rewrite Hb, Ha, app_nil_r.
Qed.

(** ** The window, for every count and maximum *)

Lemma py_slice_to_prefix {A} count (l : list A) : py_slice_to count l `prefix_of` l.
Proof. unfold py_slice_to. destruct (0 <=? count); apply prefix_take. Qed.

Lemma py_slice_to_length {A} count (l : list A) :
  length (py_slice_to count l) =
    if 0 <=? count then Nat.min (Z.to_nat count) (length l)
    else (length l - Z.to_nat (- count))%nat.
Proof.
  unfold py_slice_to. destruct (0 <=? count); rewrite length_take; lia.
Qed.

Lemma filter_history_elem target_qq history msg :
  msg ∈ filter_history target_qq history →
  msg ∈ history
  ∧ ∀ target, target_sender target_qq = Some target → sender_str msg = target.
Proof.
  unfold filter_history. destruct target_qq as [[|c q]|]; cbn.
  - intros H. split; [done|]. done.
  - intros [Hs Hin]%list_elem_of_filter. split; [done|]. by intros ? [= <-].
  - intros H. split; [done|]. done.
Qed.

Lemma select_to_recall_elem history target_qq count max_count msg :
  msg ∈ select_to_recall history target_qq count max_count →
  msg ∈ filter_history target_qq history.
Proof.
  unfold select_to_recall. intros Hin.
  destruct (py_slice_to_prefix (clamp_count count max_count)
              (sort_by_time_desc (filter_history target_qq history))) as [k Hk].
  rewrite <- (sort_by_time_desc_Permutation (filter_history target_qq history)).
  rewrite Hk. apply elem_of_app. by left.
Qed.

(** X17. Whatever the requested count and the configured maximum, negative
    values included, the window is an initial part of the filtered history
    in newest-first order, so it is itself newest first; its length is
    [min(count', available)] for a clamped count [count'] that is not
    negative, and [available - |count'|] (or zero) for a negative one. *)
Theorem window_is_newest_prefix history target_qq count max_count :
  let sorted := sort_by_time_desc (filter_history target_qq history) in
  let window := select_to_recall history target_qq count max_count in
  let clamped := clamp_count count max_count in
  window `prefix_of` sorted
  ∧ StronglySorted newer_first window
  ∧ length window =
      if 0 <=? clamped
      then Nat.min (Z.to_nat clamped) (length (filter_history target_qq history))
      else (length (filter_history target_qq history) - Z.to_nat (- clamped))%nat.
Proof.
  intros sorted window clamped.
  assert (window `prefix_of` sorted) as Hprefix by apply py_slice_to_prefix.
  split; [done|]. split.
  - destruct Hprefix as [k Hk].
    pose proof (sort_by_time_desc_sorted (filter_history target_qq history)) as Hs.
    fold sorted in Hs. rewrite Hk in Hs. by apply StronglySorted_app_1_l in Hs.
  - unfold window, select_to_recall. rewrite py_slice_to_length.
    fold clamped. by rewrite sort_by_time_desc_length.
Qed.

(** ** The trace of the handler *)

Lemma batch_recall_command_shape conf ev w :
  (∃ rp, batch_recall_command conf ev w = ([Reply rp], w))
  ∨ batch_recall_command conf ev w = ([UncaughtValueError], w)
  ∨ batch_recall_command conf ev w = ([LogHistoryError; Reply HistoryFetchFailed], w)
  ∨ ∃ digits count gid res w1,
      last (command_numbers ev) = Some digits ∧ py_int digits = Some count ∧
      0 < count ∧
      get_group_msg_history gid (fetch_count_for (configured_max_count conf)) w
        = (res, w1) ∧
      let fetched := CallHistory gid (fetch_count_for (configured_max_count conf)) res in
      let loop_run :=
        recall_loop (select_to_recall (history_messages_of res)
                       (find_target (get_messages ev)) count
                       (configured_max_count conf)) 0%nat w1 in
      (batch_recall_command conf ev w
         = ([fetched; LogHistoryError; Reply HistoryFetchFailed], w1)
       ∨ (∃ rp, batch_recall_command conf ev w = ([fetched; Reply rp], w1))
       ∨ (∃ rp, batch_recall_command conf ev w
                  = (fetched :: loop_run.1.2 ++ [Reply rp], loop_run.2))).
Proof.
  destruct (batch_recall_command_cases conf ev w)
    as [(rp & Heq & _) | [Heq | (digits & count & Hlast & Hint & Hpos & Heq)]].
  - left. by exists rp.
  - right. by left.
  - rewrite Heq.
    destruct (recall_batch_cases conf ev (find_target (get_messages ev)) count w)
      as [-> | (gid & res & w1 & _ & Hfetch & Hcases)].
    + right. right. by left.
    + right. right. right. exists digits, count, gid, res, w1.
      split; [done|]. split; [done|]. split; [done|]. split; [done|].
      cbn zeta in *. destruct Hcases as [-> | [(rp & -> & _) | ->]].
      * by left.
      * right. left. by exists rp.
      * right. right. by eexists.
Qed.

Lemma replies_cons e tr :
  replies (e :: tr) = match e with Reply r => r :: replies tr | _ => replies tr end.
Proof. by destruct e. Qed.

Lemma replies_none tr : Forall (λ e, ∀ r, e ≠ Reply r) tr → replies tr = [].
Proof.
  induction 1 as [|e tr He _ IH]; [done|].
  rewrite replies_cons. destruct e; try done. by destruct (He r).
Qed.

Lemma history_calls_cons e tr :
  history_calls (e :: tr) =
    match e with
    | CallHistory g c r => (g, c, r) :: history_calls tr
    | _ => history_calls tr
    end.
Proof. by destruct e. Qed.

Lemma history_calls_none tr :
  Forall (λ e, ∀ g c r, e ≠ CallHistory g c r) tr → history_calls tr = [].
Proof.
  induction 1 as [|e tr He _ IH]; [done|].
  rewrite history_calls_cons. destruct e; try done. by destruct (He group_id count res).
Qed.

(** X18. Unless [int] raises on the digit run, every run of the handler yields
    exactly one reply, and the reply is the last thing it does. *)
Theorem handler_replies_once conf ev w :
  (batch_recall_command conf ev w).1 = [UncaughtValueError]
  ∨ ∃ rp, replies (batch_recall_command conf ev w).1 = [rp]
          ∧ last (batch_recall_command conf ev w).1 = Some (Reply rp).
Proof.
  destruct (batch_recall_command_shape conf ev w)
    as [(rp & ->) | [-> | [-> | (digits & count & gid & res & w1 & _ & _ & _ & _ & H)]]].
  - right. by exists rp.
  - by left.
  - right. by exists HistoryFetchFailed.
  - right. cbn zeta in H. destruct H as [-> | [(rp & ->) | (rp & ->)]].
    + by exists HistoryFetchFailed.
    + by exists rp.
    + exists rp. cbn [fst]. split; [|by rewrite last_cons, last_snoc].
      destruct (recall_loop_spec
                  (select_to_recall (history_messages_of res)
                     (find_target (get_messages ev)) count
                     (configured_max_count conf)) 0%nat w1) as (_ & _ & Hnr & _).
      rewrite replies_cons. unfold replies. rewrite omap_app.
      fold (replies (recall_loop
        (select_to_recall (history_messages_of res) (find_target (get_messages ev))
           count (configured_max_count conf)) 0%nat w1).1.2).
      by rewrite (replies_none _ Hnr).
Qed.

(** X19. A run of the handler either calls the client not at all and leaves its
    state as it was, or starts with the one history fetch it makes: there
    is no delete call without a fetch before it, and no second fetch. *)
Theorem fetch_once_before_deletes conf ev w :
  (Forall (λ e, is_client_call e = false) (batch_recall_command conf ev w).1
   ∧ (batch_recall_command conf ev w).2 = w)
  ∨ ∃ gid res rest,
      (batch_recall_command conf ev w).1
        = CallHistory gid (fetch_count_for (configured_max_count conf)) res :: rest
      ∧ history_calls rest = [].
Proof.
  destruct (batch_recall_command_shape conf ev w)
    as [(rp & ->) | [-> | [-> | (digits & count & gid & res & w1 & _ & _ & _ & _ & H)]]].
  - left. split; [by repeat constructor | done].
  - left. split; [by repeat constructor | done].
  - left. split; [by repeat constructor | done].
  - right. cbn zeta in H. destruct H as [-> | [(rp & ->) | (rp & ->)]].
    + by eexists _, _, _.
    + by eexists _, _, _.
    + eexists _, _, _. split; [done|].
      destruct (recall_loop_spec
                  (select_to_recall (history_messages_of res)
                     (find_target (get_messages ev)) count
                     (configured_max_count conf)) 0%nat w1) as (_ & _ & _ & Hnh).
      unfold history_calls. rewrite omap_app.
      fold (history_calls (recall_loop
        (select_to_recall (history_messages_of res) (find_target (get_messages ev))
           count (configured_max_count conf)) 0%nat w1).1.2).
      by rewrite (history_calls_none _ Hnh).
Qed.

Lemma batch_recall_command_deletes conf ev w :
  delete_calls (batch_recall_command conf ev w).1 = []
  ∨ ∃ digits count gid res,
      last (command_numbers ev) = Some digits ∧ py_int digits = Some count ∧
      0 < count ∧
      head (batch_recall_command conf ev w).1
        = Some (CallHistory gid (fetch_count_for (configured_max_count conf)) res) ∧
      (delete_calls (batch_recall_command conf ev w).1).*1
        = omap deletable_id
            (select_to_recall (history_messages_of res)
               (find_target (get_messages ev)) count (configured_max_count conf)).
Proof.
  destruct (batch_recall_command_shape conf ev w)
    as [(rp & ->) | [-> | [-> | (digits & count & gid & res & w1 & Hl & Hi & Hp & _ & H)]]];
    [by left..|].
  cbn zeta in H. destruct H as [-> | [(rp & ->) | (rp & ->)]]; [by left..|].
  right. exists digits, count, gid, res. repeat (split; [done|]).
  cbn [fst]. rewrite delete_calls_cons, delete_calls_app. cbn [delete_calls omap list_omap].
  rewrite app_nil_r.
  by destruct (recall_loop_spec
                 (select_to_recall (history_messages_of res)
                    (find_target (get_messages ev)) count
                    (configured_max_count conf)) 0%nat w1) as (-> & _).
Qed.

(** X20. The handler only ever deletes what it fetched: every delete call
    carries the non-zero message id of an entry of the fetched history, and
    when the command names a target sender that entry is from this sender. *)
Theorem deletes_only_fetched_messages conf ev w i r :
  (i, r) ∈ delete_calls (batch_recall_command conf ev w).1 →
  ∃ gid res msg,
    head (batch_recall_command conf ev w).1
      = Some (CallHistory gid (fetch_count_for (configured_max_count conf)) res)
    ∧ msg ∈ history_messages_of res
    ∧ message_id msg = Some i ∧ i ≠ 0
    ∧ ∀ target, target_sender (find_target (get_messages ev)) = Some target →
        sender_str msg = target.
Proof.
  intros Hin.
  destruct (batch_recall_command_deletes conf ev w)
    as [Hnone | (digits & count & gid & res & _ & _ & _ & Hhead & Hcalls)].
  { rewrite Hnone in Hin. by apply elem_of_nil in Hin. }
  assert (i ∈ (delete_calls (batch_recall_command conf ev w).1).*1) as Hi.
  { apply list_elem_of_fmap. by exists (i, r). }
  rewrite Hcalls in Hi. apply list_elem_of_omap in Hi as (msg & Hmsg & Hid).
  apply select_to_recall_elem, filter_history_elem in Hmsg as [Hmsg Hsender].
  exists gid, res, msg. split; [done|]. split; [done|].
  unfold deletable_id, int_truthy in Hid.
  destruct (message_id msg) as [j|]; [|done].
  destruct (Z.eqb_spec j 0); [done|]. cbn in Hid. injection Hid as ->.
  done.
Qed.

(** X21. With a configured maximum that is not negative, a run of the handler
    makes at most [max_count] delete calls, and at most as many as the
    count it was asked for. *)
Theorem delete_calls_capped conf ev w :
  0 ≤ configured_max_count conf →
  (length (delete_calls (batch_recall_command conf ev w).1)
     ≤ Z.to_nat (configured_max_count conf))%nat
  ∧ ∀ digits count,
      last (command_numbers ev) = Some digits → py_int digits = Some count →
      (length (delete_calls (batch_recall_command conf ev w).1) ≤ Z.to_nat count)%nat.
Proof.
  intros Hmax.
  destruct (batch_recall_command_deletes conf ev w)
    as [-> | (digits & count & gid & res & Hlast & Hint & Hpos & _ & Hcalls)].
  { split; [cbn; lia|]. intros; cbn; lia. }
  assert (length (delete_calls (batch_recall_command conf ev w).1)
            ≤ Z.to_nat (clamp_count count (configured_max_count conf)))%nat as Hle.
  { rewrite <- (length_fmap fst), Hcalls.
    etrans; [apply omap_length_le|].
    unfold select_to_recall. rewrite py_slice_to_nonneg, length_take; [lia|].
    rewrite clamp_count_spec. unfold spec_clamp. lia. }
  rewrite clamp_count_spec in Hle. unfold spec_clamp in Hle.
  split; [lia|]. intros digits' count' Hlast' Hint'.
  rewrite Hlast in Hlast'. injection Hlast' as <-.
  rewrite Hint in Hint'. injection Hint' as <-. lia.
Qed.

(** * Further properties of the scheduler *)

(** ** Tasks only move forward *)

Lemma recall_msg_rank message_id pos w pos' logs :
  _recall_msg message_id pos w = Some (pos', logs) →
  (coro_rank pos < coro_rank pos')%nat.
Proof.
  unfold _recall_msg. destruct pos, w as [|e'|[|[[rc|]| |]]|]; try discriminate.
  all: try (intros [= <- _]; cbn; lia).
  - destruct (int_truthy message_id && negb (message_id =? 0));
      intros [= <- _]; cbn; lia.
  - destruct (is_benign (ActionFailed (Some rc))); intros [= <- _]; cbn; lia.
Qed.

Lemma loop_step_task l s s' t tk :
  loop_step l s = Some s' → tasks s !! t = Some tk →
  ∃ tk', tasks s' !! t = Some tk'
         ∧ task_message_id tk' = task_message_id tk
         ∧ (coro_rank (task_coro tk) ≤ coro_rank (task_coro tk'))%nat.
Proof.
  intros Hstep Htk. destruct l as [conf ev env|t0 w|t0| |]; cbn [loop_step] in Hstep.
  - injection Hstep as <-.
    destruct (intercept_cases conf ev env s) as [-> | (i & _ & _ & ->)]; [by exists tk|].
    rewrite schedule_recall_eq. cbn [tasks].
    rewrite lookup_insert_ne; [by exists tk|].
    intros Heq. rewrite <- Heq, new_handle_fresh in Htk. done.
  - destruct (wake_task t0 w s) as [[s1 logs]|] eqn:Hw; [|done].
    injection Hstep as <-.
    apply wake_task_Some in Hw as (tk0 & pos & Htk0 & _ & _ & Hpos & ->).
    cbn [tasks]. destruct (decide (t0 = t)) as [->|Hne].
    + rewrite lookup_insert_eq. eexists. split; [done|].
      rewrite Htk in Htk0. injection Htk0 as <-. split; [done|].
      apply recall_msg_rank in Hpos. cbn. lia.
    + rewrite lookup_insert_ne by done. by exists tk.
  - case_bool_decide; [|done]. injection Hstep as <-. by exists tk.
  - destruct (gathering s); [done|]. injection Hstep as <-.
    rewrite terminate_cancel_all_lookup, Htk. cbn. eexists. split; [done|].
    by destruct (bool_decide _ && negb _).
  - destruct (gathering s) as [children|]; [|done].
    destruct (gathered s children); [|done]. injection Hstep as <-. by exists tk.
Qed.

Lemma run_task ls s s' t tk :
  run ls s = Some s' → tasks s !! t = Some tk →
  ∃ tk', tasks s' !! t = Some tk'
         ∧ task_message_id tk' = task_message_id tk
         ∧ (coro_rank (task_coro tk) ≤ coro_rank (task_coro tk'))%nat.
Proof.
  revert s tk. induction ls as [|l ls IH]; intros s tk; cbn [run].
  - intros [= <-] Htk. by exists tk.
  - destruct (loop_step l s) as [s1|] eqn:Hstep; [|done]. intros Hrun Htk.
    destruct (loop_step_task l s s1 t tk Hstep Htk) as (tk1 & Htk1 & Hid1 & Hrank1).
    destruct (IH s1 tk1 Hrun Htk1) as (tk' & Htk' & Hid & Hrank).
    exists tk'. split; [done|]. split; [congruence | lia].
Qed.

(** X3. Whatever the loop runs, a task is never forgotten or replaced, its
    message id never changes, and its coroutine never goes back: a task
    that has started its delete call, or is done, stays so. *)
Theorem tasks_only_move_forward ls s s' t tk :
  run ls s = Some s' → tasks s !! t = Some tk →
  ∃ tk', tasks s' !! t = Some tk'
         ∧ task_message_id tk' = task_message_id tk
         ∧ (coro_rank (task_coro tk) ≤ coro_rank (task_coro tk'))%nat
         ∧ (done tk = true → tk' = tk).
Proof.
  revert s tk. induction ls as [|l ls IH]; intros s tk; cbn [run].
  - intros [= <-] Htk. exists tk. by repeat split.
  - destruct (loop_step l s) as [s1|] eqn:Hstep; [|done]. intros Hrun Htk.
    destruct (loop_step_task l s s1 t tk Hstep Htk) as (tk1 & Htk1 & Hid1 & Hrank1).
    destruct (IH s1 tk1 Hrun Htk1) as (tk' & Htk' & Hid & Hrank & Hdone).
    exists tk'. split; [done|]. split; [congruence|]. split; [lia|].
    intros Hd.
    assert (tk1 = tk) as ->.
    { clear IH Hrun Htk' Hdone.
      destruct l as [conf ev env|t0 w|t0| |]; cbn [loop_step] in Hstep.
      - injection Hstep as <-.
        destruct (intercept_cases conf ev env s) as [Heq | (i & _ & _ & Heq)];
          rewrite Heq in Htk1; [congruence|].
        rewrite schedule_recall_eq in Htk1. cbn [tasks] in Htk1.
        rewrite lookup_insert_ne in Htk1; [congruence|].
        intros Heq'. rewrite <- Heq', new_handle_fresh in Htk. done.
      - destruct (wake_task t0 w s) as [[s2 logs]|] eqn:Hw; [|done].
        injection Hstep as <-.
        apply wake_task_Some in Hw as (tk0 & pos & Htk0 & Hnd & _ & _ & ->).
        cbn [tasks] in Htk1. destruct (decide (t0 = t)) as [->|Hne].
        + congruence.
        + rewrite lookup_insert_ne in Htk1 by done. congruence.
      - case_bool_decide; [|done]. injection Hstep as <-. cbn in Htk1. congruence.
      - destruct (gathering s); [done|]. injection Hstep as <-.
        rewrite terminate_cancel_all_lookup, Htk in Htk1. cbn in Htk1.
        rewrite Hd, andb_false_r in Htk1. congruence.
      - destruct (gathering s) as [children|]; [|done].
        destruct (gathered s children); [|done]. injection Hstep as <-.
        cbn in Htk1. congruence. }
    by apply Hdone.
Qed.

(** ** One delete call per task *)

Lemma rank_of_lookup s t tk :
  tasks s !! t = Some tk → rank_of s t = coro_rank (task_coro tk).
Proof. unfold rank_of. by intros ->. Qed.

Lemma loop_step_rank l s s' t :
  loop_step l s = Some s' → (rank_of s t ≤ rank_of s' t)%nat.
Proof.
  intros Hstep. unfold rank_of at 1.
  destruct (tasks s !! t) as [tk|] eqn:Htk; [|lia].
  destruct (loop_step_task l s s' t tk Hstep Htk) as (tk' & Htk' & _ & Hrank).
  by rewrite (rank_of_lookup _ _ _ Htk').
Qed.

Lemma issued_delete_elem l s s' t i :
  loop_step l s = Some s' → (t, i) ∈ issued_delete l s s' →
  (rank_of s t < 2)%nat
  ∧ ∃ tk, tasks s' !! t = Some tk ∧ task_message_id tk = i
          ∧ task_coro tk = Deleting.
Proof.
  intros Hstep Hin. destruct l as [conf ev env|t0 w|t0| |];
    cbn [issued_delete] in Hin; try by apply elem_of_nil in Hin.
  cbn [loop_step] in Hstep.
  destruct (wake_task t0 w s) as [[s1 logs]|] eqn:Hw; [|done].
  injection Hstep as <-.
  apply wake_task_Some in Hw as (tk0 & pos & Htk0 & _ & _ & Hpos & ->).
  cbn [tasks] in Hin. rewrite lookup_insert_eq in Hin. cbn [task_coro] in Hin.
  destruct pos; try by apply elem_of_nil in Hin.
  apply list_elem_of_singleton in Hin. injection Hin as -> ->.
  split.
  - rewrite (rank_of_lookup _ _ _ Htk0). apply recall_msg_rank in Hpos. cbn in Hpos. lia.
  - cbn [tasks]. rewrite lookup_insert_eq. by eexists.
Qed.

Lemma issued_deletes_started ls s t :
  (2 ≤ rank_of s t)%nat → t ∉ (issued_deletes ls s).*1.
Proof.
  revert s. induction ls as [|l ls IH]; intros s Hrank; cbn [issued_deletes].
  - apply not_elem_of_nil.
  - destruct (loop_step l s) as [s1|] eqn:Hstep; [|apply not_elem_of_nil].
    rewrite fmap_app. intros [Hin|Hin]%elem_of_app.
    + apply list_elem_of_fmap in Hin as ([t' i] & -> & Hin).
      apply (issued_delete_elem l s s1) in Hin as [Hlt _]; [|done]. cbn in Hrank. lia.
    + revert Hin. apply IH. pose proof (loop_step_rank l s s1 t Hstep). lia.
Qed.

Lemma issued_delete_NoDup l s s' : NoDup (issued_delete l s s').*1.
Proof.
  destruct l; cbn; try apply NoDup_nil_2.
  destruct (tasks s' !! t) as [tk|]; [|apply NoDup_nil_2].
  destruct (task_coro tk); try apply NoDup_nil_2. cbn. apply NoDup_singleton.
Qed.

Lemma issued_deletes_NoDup ls s : NoDup (issued_deletes ls s).*1.
Proof.
  revert s. induction ls as [|l ls IH]; intros s; cbn [issued_deletes].
  - apply NoDup_nil_2.
  - destruct (loop_step l s) as [s1|] eqn:Hstep; [|apply NoDup_nil_2].
    rewrite fmap_app. apply NoDup_app. split; [apply issued_delete_NoDup|].
    split; [|apply IH].
    intros t Hin. apply list_elem_of_fmap in Hin as ([t' i] & -> & Hin).
    destruct (issued_delete_elem l s s1 t' i Hstep Hin) as (_ & tk & Htk & _ & Hpos).
    apply issued_deletes_started. cbn [fst].
    rewrite (rank_of_lookup _ _ _ Htk), Hpos. done.
Qed.

Lemma loop_step_ids_nonzero l s s' :
  loop_step l s = Some s' → ids_nonzero s → ids_nonzero s'.
Proof.
  intros Hstep Hids t tk' Htk'.
  destruct l as [conf ev env|t0 w|t0| |]; cbn [loop_step] in Hstep.
  - injection Hstep as <-.
    destruct (intercept_cases conf ev env s) as [Heq | (i & Hi & _ & Heq)];
      rewrite Heq in Htk'; [by eapply Hids|].
    rewrite schedule_recall_eq in Htk'. cbn [tasks] in Htk'.
    rewrite lookup_insert in Htk'. case_decide; [by injection Htk' as <-|].
    by eapply Hids.
  - destruct (wake_task t0 w s) as [[s1 logs]|] eqn:Hw; [|done].
    injection Hstep as <-.
    apply wake_task_Some in Hw as (tk0 & pos & Htk0 & _ & _ & _ & ->).
    cbn [tasks] in Htk'. rewrite lookup_insert in Htk'.
    case_decide; [injection Htk' as <-; cbn; by eapply (Hids t0)|]. by eapply Hids.
  - case_bool_decide; [|done]. injection Hstep as <-. by eapply Hids.
  - destruct (gathering s); [done|]. injection Hstep as <-.
    rewrite terminate_cancel_all_lookup in Htk'.
    destruct (tasks s !! t) as [tk|] eqn:Htk; [|done]. cbn in Htk'.
    injection Htk' as <-. specialize (Hids t tk Htk).
    by destruct (bool_decide _ && negb _).
  - destruct (gathering s) as [children|]; [|done].
    destruct (gathered s children); [|done]. injection Hstep as <-. by eapply Hids.
Qed.

Lemma issued_deletes_final ls s s' t i :
  run ls s = Some s' → ids_nonzero s → (t, i) ∈ issued_deletes ls s →
  i ≠ 0 ∧ ∃ tk, tasks s' !! t = Some tk ∧ task_message_id tk = i
                ∧ (2 ≤ coro_rank (task_coro tk))%nat.
Proof.
  revert s. induction ls as [|l ls IH]; intros s; cbn [run issued_deletes].
  - intros _ _ Hin. by apply elem_of_nil in Hin.
  - destruct (loop_step l s) as [s1|] eqn:Hstep; [|done].
    intros Hrun Hids [Hin|Hin]%elem_of_app.
    + destruct (issued_delete_elem l s s1 t i Hstep Hin) as (_ & tk & Htk & Hid & Hpos).
      pose proof (loop_step_ids_nonzero l s s1 Hstep Hids t tk Htk) as Hnz.
      split; [congruence|].
      destruct (run_task ls s1 s' t tk Hrun Htk) as (tk' & Htk' & Hid' & Hrank).
      exists tk'. split; [done|]. split; [congruence|]. rewrite Hpos in Hrank. done.
    + apply (IH s1); [done | by eapply loop_step_ids_nonzero | done].
Qed.

(** X1. Along every run of the loop from the start, a recall task issues at
    most one delete call.  The call is for the message id the task was
    created with, which is not zero, and the task has then left its sleep
    for good. *)
Theorem one_delete_call_per_task ls s :
  run ls initial = Some s →
  NoDup (issued_deletes ls initial).*1
  ∧ ∀ t i, (t, i) ∈ issued_deletes ls initial →
      i ≠ 0 ∧ ∃ tk, tasks s !! t = Some tk ∧ task_message_id tk = i
                    ∧ (2 ≤ coro_rank (task_coro tk))%nat.
Proof.
  intros Hrun. split; [apply issued_deletes_NoDup|].
  intros t i. apply (issued_deletes_final ls initial s t i Hrun).
  intros t' tk. cbn. by rewrite lookup_empty.
Qed.

(** ** Teardown always comes to its end *)

Lemma settles_insert_fresh s t tk0 :
  settles s t →
  settles (Loop (<[new_handle s := tk0]> (tasks s)) (recall_tasks s)
             (callbacks s) (gathering s)) t
  ∧ t ≠ new_handle s.
Proof.
  intros (tk & Htk & Hrest).
  assert (t ≠ new_handle s) as Hne.
  { intros ->. by rewrite new_handle_fresh in Htk. }
  split; [|done]. exists tk. cbn [tasks]. by rewrite lookup_insert_ne.
Qed.

Lemma loop_step_settles l s s' t :
  l ≠ TerminateCancel → loop_step l s = Some s' → settles s t → settles s' t.
Proof.
  intros Hl Hstep Hs. destruct l as [conf ev env|t0 w|t0| |]; cbn [loop_step] in Hstep.
  - injection Hstep as <-.
    destruct (intercept_cases conf ev env s) as [-> | (i & _ & _ & ->)]; [done|].
    destruct Hs as (tk & Htk & Hrest). exists tk. split; [|done].
    rewrite schedule_recall_eq. cbn [tasks]. rewrite lookup_insert_ne; [done|].
    intros Heq. rewrite <- Heq, new_handle_fresh in Htk. done.
  - destruct (wake_task t0 w s) as [[s1 logs]|] eqn:Hw; [|done].
    injection Hstep as <-.
    apply wake_task_Some in Hw as (tk0 & pos & Htk0 & Hnd & Hc & Hpos & ->).
    destruct Hs as (tk & Htk & Hrm & Hstate). unfold settles. cbn [tasks].
    destruct (decide (t0 = t)) as [->|Hne].
    + rewrite lookup_insert_eq. eexists. split; [done|].
      rewrite Htk in Htk0. injection Htk0 as <-. split; [done|]. left.
      destruct Hstate as [Hd|Hmc]; [congruence|].
      rewrite Hmc in Hc. destruct w; try discriminate.
      apply recall_msg_resumable in Hpos as Hres.
      rewrite recall_msg_cancel in Hpos by done. by injection Hpos as <- _.
    + rewrite lookup_insert_ne by done. by exists tk.
  - case_bool_decide; [|done]. injection Hstep as <-. done.
  - done.
  - destruct (gathering s) as [children|]; [|done].
    destruct (gathered s children); [|done]. injection Hstep as <-. done.
Qed.

Lemma loop_step_drain_inv l s s' :
  loop_step l s = Some s' → loop_inv s → drain_inv s → drain_inv s'.
Proof.
  intros Hstep Hinv Hdrain children Hg t Ht.
  assert (l = TerminateCancel ∨ l ≠ TerminateCancel) as [->|Hl]
    by (destruct l; auto; right; discriminate).
  - cbn [loop_step] in Hstep. destruct (gathering s); [done|].
    injection Hstep as <-. cbn [gathering terminate_cancel_all] in Hg.
    injection Hg as <-. by apply terminate_cancel_all_settles.
  - apply (loop_step_settles l s s' t Hl Hstep). apply (Hdrain children); [|done].
    destruct l as [conf ev env|t0 w|t0| |]; cbn [loop_step] in Hstep.
    + injection Hstep as <-.
      destruct (intercept_cases conf ev env s) as [Heq | (i & _ & _ & Heq)];
        rewrite Heq in Hg; [done|]. by rewrite schedule_recall_eq in Hg.
    + destruct (wake_task t0 w s) as [[s1 logs]|] eqn:Hw; [|done].
      injection Hstep as <-.
      by apply wake_task_Some in Hw as (tk0 & pos & _ & _ & _ & _ & ->).
    + case_bool_decide; [|done]. by injection Hstep as <-.
    + done.
    + destruct (gathering s) as [children'|]; [|done].
      destruct (gathered s children'); [|done]. by injection Hstep as <-.
Qed.

Lemma run_drain_inv ls s s' :
  run ls s = Some s' → loop_inv s → drain_inv s → drain_inv s'.
Proof.
  revert s. induction ls as [|l ls IH]; intros s; cbn [run].
  - by intros [= <-].
  - destruct (loop_step l s) as [s1|] eqn:Hstep; [|done]. intros Hrun Hinv Hdrain.
    apply (IH s1 Hrun); [by eapply loop_step_inv | by eapply loop_step_drain_inv].
Qed.

(** X9. However the wait of [terminate] was interleaved with other steps of the
    loop, a teardown in progress can always be brought to its end: the
    awaited tasks finish, their callbacks run, and [clear()] leaves the
    registry empty with no teardown pending. *)
Theorem teardown_can_always_finish ls s children :
  run ls initial = Some s → gathering s = Some children →
  ∃ steps s',
    run steps s = Some s' ∧ gathering s' = None ∧ recall_tasks s' = ∅
    ∧ ∀ t, t ∈ children → is_done s' t = true.
Proof.
  intros Hrun Hg.
  assert (drain_inv s) as Hdrain.
  { eapply run_drain_inv; [done | apply initial_inv | done]. }
  assert (∀ t, t ∈ elements children → settles s t) as Hchildren.
  { intros t Ht%elem_of_elements. by apply (Hdrain children). }
  destruct (foldr_settle_spec _ _ Hchildren)
    as (Hg2 & [steps Hsteps] & _ & _ & Hdone & _).
  set (s2 := foldr settle s (elements children)) in *.
  exists (steps ++ [TerminateClear]), (terminate_clear s2).
  split; [|split; [done|split; [done|]]].
  - rewrite run_app, Hsteps. cbn [mbind option_bind run loop_step].
    rewrite Hg2, Hg.
    assert (gathered s2 children = true) as ->; [|done].
    apply bool_decide_eq_true. intros t Ht. apply Hdone. by apply elem_of_elements.
  - intros t Ht. unfold is_done. cbn [tasks terminate_clear].
    apply elem_of_elements in Ht. by destruct (Hdone t Ht).
Qed.

(** ** Nothing runs after the teardown *)

Lemma wake_task_done t w s : is_done s t = true → wake_task t w s = None.
Proof.
  intros Hd. destruct (wake_task t w s) as [[s' logs]|] eqn:Hw; [|done].
  apply wake_task_Some in Hw as (tk & pos & Htk & Hnd & _).
  rewrite (is_done_lookup _ _ _ Htk) in Hd. congruence.
Qed.

(** X10. After [terminate] has run, no task that was in the registry is ever
    resumed again, and none of them issues a delete call in any later run
    of the loop. *)
Theorem no_delete_after_teardown ls s later t :
  run ls initial = Some s → gathering s = None → t ∈ recall_tasks s →
  (∀ w, wake_task t w (terminate s) = None)
  ∧ t ∉ (issued_deletes later (terminate s)).*1.
Proof.
  intros Hrun Hidle Ht.
  assert (loop_inv s) as Hinv by (eapply run_inv; [done | apply initial_inv]).
  assert (∀ t, t ∈ elements (recall_tasks s) → settles (terminate_cancel_all s) t)
    as Hchildren.
  { intros t' Ht'%elem_of_elements. by apply terminate_cancel_all_settles. }
  destruct (foldr_settle_spec _ _ Hchildren) as (_ & _ & _ & _ & Hdone & _).
  assert (is_done (terminate s) t = true) as Hd.
  { unfold terminate, is_done. cbn [tasks terminate_clear].
    apply elem_of_elements in Ht. by destruct (Hdone t Ht). }
  split; [intros w; by apply wake_task_done|].
  apply issued_deletes_started.
  apply is_done_true in Hd as (tk & Htk & Hd).
  rewrite (rank_of_lookup _ _ _ Htk). unfold done in Hd.
  destruct (task_coro tk); cbn; try done; lia.
Qed.

(** ** The registry while nothing was cleared *)

Lemma loop_step_queued l s s' :
  l ≠ TerminateClear → pending_registered s →
  callbacks s ⊆ recall_tasks s →
  loop_step l s = Some s' → callbacks s' ⊆ recall_tasks s'.
Proof.
  intros Hl Hpend Hsub Hstep t.
  destruct l as [conf ev env|t0 w|t0| |]; cbn [loop_step] in Hstep; [..|done].
  - injection Hstep as <-.
    destruct (intercept_cases conf ev env s) as [-> | (i & _ & _ & ->)];
      [apply Hsub|].
    rewrite schedule_recall_eq. cbn [callbacks recall_tasks]. intros Hin.
    apply elem_of_union_r. by apply Hsub.
  - destruct (wake_task t0 w s) as [[s1 logs]|] eqn:Hw; [|done].
    injection Hstep as <-.
    apply wake_task_Some in Hw as (tk0 & pos & Htk0 & Hnd & _ & _ & ->).
    cbn [callbacks recall_tasks].
    destruct (done _ && remove_on_done tk0); [|apply Hsub].
    intros [->%elem_of_singleton | Hin]%elem_of_union; [|by apply Hsub].
    by eapply Hpend.
  - case_bool_decide; [|done]. injection Hstep as <-. cbn [callbacks recall_tasks _remove_task].
    intros [Hin Hne]%elem_of_difference. apply elem_of_difference. split; [|done].
    by apply Hsub.
  - destruct (gathering s); [done|]. injection Hstep as <-. apply Hsub.
Qed.

Lemma run_queued ls s s' :
  TerminateClear ∉ ls → loop_inv s → pending_registered s →
  callbacks s ⊆ recall_tasks s → run ls s = Some s' →
  pending_registered s' ∧ callbacks s' ⊆ recall_tasks s'.
Proof.
  revert s. induction ls as [|l ls IH]; intros s Hnc Hinv Hpend Hsub; cbn [run].
  - by intros [= <-].
  - destruct (loop_step l s) as [s1|] eqn:Hstep; [|done].
    apply not_elem_of_cons in Hnc as [Hl Hnc]. intros Hrun.
    apply (IH s1); [done | by eapply loop_step_inv | | | done].
    + eapply loop_step_pending; [| | |exact Hstep]; done.
    + eapply loop_step_queued; [| | |exact Hstep]; done.
Qed.

(** X4. As long as [clear()] has not run, the registry holds exactly the tasks
    that are not done and the finished tasks whose [_remove_task] callback
    is still queued. *)
Theorem registry_is_pending_or_queued ls s t :
  run ls initial = Some s → TerminateClear ∉ ls →
  t ∈ recall_tasks s ↔
    ∃ tk, tasks s !! t = Some tk ∧ (done tk = false ∨ t ∈ callbacks s).
Proof.
  intros Hrun Hnc.
  assert (loop_inv s) as Hinv by (eapply run_inv; [done | apply initial_inv]).
  destruct (run_queued ls initial s Hnc initial_inv) as [Hpend Hsub]; [| |done|].
  { intros t' tk. cbn. by rewrite lookup_empty. }
  { done. }
  split.
  - intros Hin. destruct (inv_registered s Hinv t Hin) as (tk & Htk & Hd).
    exists tk. split; [done|]. destruct (done tk); [right; by apply Hd | by left].
  - intros (tk & Htk & [Hd | Hq]); [by eapply Hpend | by apply Hsub].
Qed.

(** * Further properties of the intercept handler *)

Lemma schedule_recall_changes message_id s : schedule_recall message_id s ≠ s.
Proof.
  intros Heq.
  assert (tasks (schedule_recall message_id s) !! new_handle s
            = Some (Task message_id NotStarted false true)) as H.
  { rewrite schedule_recall_eq. apply lookup_insert_eq. }
  rewrite Heq, new_handle_fresh in H. done.
Qed.

(** The conditions under which the handler sends the message itself and
    gets an id back. *)
Lemma intercept_unchanged_or_scheduled conf ev env s :
  let session_id := if is_group ev then group_id_str ev else get_sender_id ev in
  ((intercept_and_recall conf ev env s).1.1 = s
   ∧ ¬ (_should_enable_recall conf ev = true ∧ is_aiocqhttp ev = true
        ∧ opt_truthy list_truthy (get_result ev) = true
        ∧ opt_truthy list_truthy (parsed_messages env) = true
        ∧ is_Some (py_int session_id)
        ∧ send_outcome env ≠ SendRaised
        ∧ opt_truthy int_truthy (sent_message_id (send_outcome env)) = true))
  ∨ (∃ sid i,
       _should_enable_recall conf ev = true ∧ is_aiocqhttp ev = true
       ∧ opt_truthy list_truthy (get_result ev) = true
       ∧ opt_truthy list_truthy (parsed_messages env) = true
       ∧ py_int session_id = Some sid
       ∧ sent_message_id (send_outcome env) = Some i ∧ i ≠ 0
       ∧ intercept_and_recall conf ev env s
           = (schedule_recall i s,
              [ClearChain; if is_group ev then SendGroupMsg sid else SendPrivateMsg sid],
              [Intercepted; SentWithId i; RecallScheduled])).
Proof.
  intros session_id. unfold intercept_and_recall. fold session_id.
  destruct (_should_enable_recall conf ev); cbn [negb];
    [|left; split; [done|]; by intros (? & _)].
  destruct (is_aiocqhttp ev); cbn [negb];
    [|left; split; [done|]; by intros (_ & ? & _)].
  destruct (get_result ev) as [[|seg chain]|];
    [left; split; [done|]; by intros (_ & _ & ? & _)| |
     left; split; [done|]; by intros (_ & _ & ? & _)].
  destruct (parsed_messages env) as [[|msg msgs]|];
    [left; split; [done|]; by intros (_ & _ & _ & ? & _)| |
     left; split; [done|]; by intros (_ & _ & _ & ? & _)].
  destruct (py_int session_id) as [sid|];
    [|left; split; [done|]; by intros (_ & _ & _ & _ & [? ?] & _)].
  unfold schedule_from_send.
  destruct (send_outcome env) as [| |[i|]]; cbn [sent_message_id].
  - left; split; [done|]; by intros (_ & _ & _ & _ & _ & ? & _).
  - left; split; [done|]; by intros (_ & _ & _ & _ & _ & _ & ?).
  - unfold int_truthy. destruct (Z.eqb_spec i 0) as [->|Hne]; cbn [negb].
    + left; split; [done|]; by intros (_ & _ & _ & _ & _ & _ & ?).
    + right. exists sid, i. by repeat split.
  - left; split; [done|]; by intros (_ & _ & _ & _ & _ & _ & ?).
Qed.

(** X5. The handler changes the scheduler exactly when recall is enabled for
    the event, the platform is the supported one, the result chain and the
    parsed messages are not empty, the session id reads as a number, and
    the send returns a dict with a non-zero message id.  It then registers
    one new task for this id, after clearing the chain and sending to the
    group (group chat) or to the sender (private chat); in every other case
    the scheduler is left as it was. *)
Theorem intercept_schedules_exactly_when conf ev env s :
  let session_id := if is_group ev then group_id_str ev else get_sender_id ev in
  ((intercept_and_recall conf ev env s).1.1 ≠ s ↔
     _should_enable_recall conf ev = true ∧ is_aiocqhttp ev = true
     ∧ opt_truthy list_truthy (get_result ev) = true
     ∧ opt_truthy list_truthy (parsed_messages env) = true
     ∧ is_Some (py_int session_id)
     ∧ send_outcome env ≠ SendRaised
     ∧ opt_truthy int_truthy (sent_message_id (send_outcome env)) = true)
  ∧ ((intercept_and_recall conf ev env s).1.1 ≠ s →
     ∃ sid i,
       py_int session_id = Some sid
       ∧ sent_message_id (send_outcome env) = Some i ∧ i ≠ 0
       ∧ intercept_and_recall conf ev env s
           = (schedule_recall i s,
              [ClearChain; if is_group ev then SendGroupMsg sid else SendPrivateMsg sid],
              [Intercepted; SentWithId i; RecallScheduled])).
Proof.
  cbn zeta. pose proof (intercept_unchanged_or_scheduled conf ev env s) as H.
  cbn zeta in H.
  destruct H as [[Hsame Hnot] | (sid & i & He & Hp & Hr & Hm & Hsid & Hi & Hnz & Heq)].
  - split; [split; [by rewrite Hsame | done] | by rewrite Hsame].
  - split.
    + split.
      * intros _. split; [done|]. split; [done|]. split; [done|]. split; [done|].
        split; [by exists sid|].
        split; [by destruct (send_outcome env)|].
        rewrite Hi. cbn. unfold int_truthy. by destruct (Z.eqb_spec i 0).
      * intros _. rewrite Heq. cbn. apply schedule_recall_changes.
    + intros _. by exists sid, i.
Qed.

(** X6. Whatever happens, the handler makes at most one send call, only after
    it has cleared the result chain, to the group of a group chat or to the
    sender of a private chat; and it never leaves the scheduler changed
    without having sent. *)
Theorem intercept_sends_at_most_once conf ev env s :
  let calls := (intercept_and_recall conf ev env s).1.2 in
  (calls = [] ∨ calls = [ClearChain]
   ∨ (∃ sid, calls = [ClearChain; SendGroupMsg sid]
             ∧ is_group ev = true ∧ py_int (group_id_str ev) = Some sid)
   ∨ (∃ sid, calls = [ClearChain; SendPrivateMsg sid]
             ∧ is_group ev = false ∧ py_int (get_sender_id ev) = Some sid))
  ∧ (length calls < 2 → (intercept_and_recall conf ev env s).1.1 = s)%nat.
Proof.
  cbn zeta. unfold intercept_and_recall.
  destruct (_should_enable_recall conf ev); cbn [negb]; [|by split; [left|]].
  destruct (is_aiocqhttp ev); cbn [negb]; [|by split; [left|]].
  destruct (get_result ev) as [[|seg chain]|]; [by split; [left|]| |by split; [left|]].
  destruct (parsed_messages env) as [[|msg msgs]|];
    [by split; [right; left|]| |by split; [right; left|]].
  destruct (is_group ev) eqn:Hgroup.
  - destruct (py_int (group_id_str ev)) as [sid|] eqn:Hsid; [|by split; [right; left|]].
    assert (∀ X Y : loop * list log_entry,
      (let '(s', logs) := X in (s', [ClearChain; SendGroupMsg sid], Intercepted :: logs)).1.2
        = [ClearChain; SendGroupMsg sid]) as Hcalls by (by intros [? ?] _).
    destruct (send_outcome env) as [| |m];
      (split; [right; right; left; exists sid; split; [|done];
               first [done | by destruct (schedule_from_send _ s)]
              | first [done | destruct (schedule_from_send _ s); cbn; lia]]).
  - destruct (py_int (get_sender_id ev)) as [sid|] eqn:Hsid; [|by split; [right; left|]].
    destruct (send_outcome env) as [| |m];
      (split; [right; right; right; exists sid; split; [|done];
               first [done | by destruct (schedule_from_send _ s)]
              | first [done | destruct (schedule_from_send _ s); cbn; lia]]).
Qed.

(** * [recall_config_command] and the gate *)

(** X8. What the configuration command prints is what the gate does: the
    private line is the answer for every private chat; with the line "all
    groups" the group line is the answer for every group chat; and with a
    count of listed groups, which is then positive, a group chat gets the
    group line when its id is listed and no recall otherwise. *)
Theorem config_command_shows_the_gate conf ev :
  let info := recall_config_command conf in
  let whitelist := default [] (group_whitelist conf) in
  (is_group ev = false → _should_enable_recall conf ev = shown_private info)
  ∧ (is_group ev = true → shown_whitelist info = AllGroups →
     _should_enable_recall conf ev = shown_group info)
  ∧ (∀ n, shown_whitelist info = GroupCount n →
       (0 < n)%nat ∧ n = length whitelist
       ∧ (is_group ev = true →
          _should_enable_recall conf ev
            = bool_decide (group_id_str ev ∈ whitelist) && shown_group info)).
Proof.
  cbn zeta. unfold recall_config_command, _should_enable_recall.
  cbn [shown_private shown_group shown_whitelist].
  destruct (is_group ev); cbn [negb].
  - split; [done|].
    destruct (default [] (group_whitelist conf)) as [|g wl] eqn:Hwl; cbn [list_truthy andb].
    + split; [done|]. intros n [=].
    + split; [done|]. intros n [= <-]. split; [cbn; lia|]. split; [done|].
      intros _. by destruct (bool_decide _).
  - split; [done|]. split; [done|].
    destruct (default [] (group_whitelist conf)) as [|g wl]; cbn [list_truthy].
    + intros n [=].
    + intros n [= <-]. split; [cbn; lia|]. split; [done|]. done.
Qed.

(** * [_get_recent_bot_messages] *)

(** X7. The helper never raises.  It returns exactly the entries of the fetched
    history whose sender is the bot itself, in fetch order; whenever it logs
    an error it returns the empty list; it makes at most one history call,
    with the count it was given; and without a call (no group id, or an id
    that is no number) the client is left as it was. *)
Theorem recent_bot_messages_are_own self_id ev count w :
  let result := _get_recent_bot_messages self_id ev count w in
  (∀ msg, msg ∈ result.1.1 → sender_str msg = self_id)
  ∧ (RecentLogError ∈ result.1.2 → result.1.1 = [])
  ∧ (∀ gid c res, RecentHistoryCall gid c res ∈ result.1.2 →
       c = count ∧ get_group_id ev ≫= py_int = Some gid
       ∧ get_group_msg_history gid count w = (res, result.2)
       ∧ result.1.1 = filter (λ msg, sender_str msg = self_id) (history_messages_of res))
  ∧ (length result.1.2 ≤ 2)%nat
  ∧ (get_group_id ev ≫= py_int = None → result = ([], [RecentLogError], w)).
Proof.
  cbn zeta. unfold _get_recent_bot_messages.
  destruct (get_group_id ev ≫= py_int) as [gid|] eqn:Hgid.
  - destruct (get_group_msg_history gid count w) as [res w1] eqn:Hcall.
    destruct res as [e| |messages]; cbn [fst snd].
    + split; [by intros msg ?%elem_of_nil|]. split; [done|].
      split; [|split; [cbn; lia | done]].
      intros g c r H. elem_inv H. by injection H as -> -> ->.
    + split; [by intros msg ?%elem_of_nil|]. split; [done|].
      split; [|split; [cbn; lia | done]].
      intros g c r H. elem_inv H. by injection H as -> -> ->.
    + split; [by intros msg [? _]%list_elem_of_filter|].
      split; [intros H; elem_inv H|].
      split; [|split; [cbn; lia | done]].
      intros g c r H. elem_inv H. by injection H as -> -> ->.
  - cbn [fst snd]. split; [by intros msg ?%elem_of_nil|]. split; [done|].
    split; [|split; [cbn; lia | done]].
    intros g c r H. elem_inv H.
Qed.

(** * A recall that is not cancelled runs to its end *)

Lemma wake_task_eq t w s tk pos logs :
  tasks s !! t = Some tk → must_cancel tk = is_cancel w →
  _recall_msg (task_message_id tk) (task_coro tk) w = Some (pos, logs) →
  loop_step (Wake t w) s =
    Some (Loop (<[t := Task (task_message_id tk) pos false (remove_on_done tk)]>
                  (tasks s))
            (recall_tasks s)
            (if done (Task (task_message_id tk) pos false (remove_on_done tk))
                && remove_on_done tk
             then {[t]} ∪ callbacks s else callbacks s)
            (gathering s)).
Proof.
  intros Htk Hc Hpos. cbn [loop_step]. unfold wake_task.
  by rewrite Htk, bool_decide_true, Hpos.
Qed.

Lemma run_ids_nonzero ls s s' : run ls s = Some s' → ids_nonzero s → ids_nonzero s'.
Proof.
  revert s. induction ls as [|l ls IH]; intros s; cbn [run].
  - by intros [= <-].
  - destruct (loop_step l s) as [s1|] eqn:Hstep; [|done]. intros Hrun Hids.
    apply (IH s1 Hrun). by eapply loop_step_ids_nonzero.
Qed.

Lemma recall_msg_delete_end message_id res :
  ∃ logs, _recall_msg message_id Deleting (DeleteDone res)
            = Some (delete_end res, logs).
Proof.
  rewrite recall_msg_after_delete. unfold delete_end.
  destruct (retcode_missing res); eauto.
Qed.

Lemma delete_end_done message_id res rm :
  done (Task message_id (delete_end res) false rm) = true.
Proof. unfold delete_end, done. cbn. by destruct (retcode_missing res). Qed.

Lemma delete_end_not_deleting res :
  match delete_end res with Deleting => true | _ => false end = false.
Proof. unfold delete_end. by destruct (retcode_missing res). Qed.

(** The last two steps of a recall: the delete call comes back with any
    outcome, the task is done, and its callback takes the handle out of the
    registry. *)
Lemma finish_from_deleting t s tk res :
  tasks s !! t = Some tk → task_coro tk = Deleting → must_cancel tk = false →
  remove_on_done tk = true →
  ∃ s', run [Wake t (DeleteDone res); DoneCallback t] s = Some s'
        ∧ issued_deletes [Wake t (DeleteDone res); DoneCallback t] s = []
        ∧ tasks s' !! t = Some (Task (task_message_id tk) (delete_end res) false true)
        ∧ t ∉ recall_tasks s'.
Proof.
  intros Htk Hpos Hmc Hrm.
  destruct (recall_msg_delete_end (task_message_id tk) res) as [logs Hstep].
  rewrite <- Hpos in Hstep.
  pose proof (wake_task_eq t (DeleteDone res) s tk _ _ Htk Hmc Hstep) as Hw.
  rewrite Hrm, delete_end_done in Hw. cbn [andb] in Hw.
  eexists. cbn [run issued_deletes]. rewrite Hw.
  cbn [loop_step callbacks issued_delete tasks].
  rewrite bool_decide_true by (apply elem_of_union_l; by apply elem_of_singleton).
  split; [reflexivity|]. cbn [tasks _remove_task recall_tasks].
  rewrite lookup_insert_eq. cbn [task_coro task_message_id app].
  pose proof (delete_end_not_deleting res) as Hnd.
  split; [by destruct (delete_end res)|]. split; [done|].
  intros [_ Hne]%elem_of_difference. by apply Hne, elem_of_singleton.
Qed.

Lemma finish_from_sleeping t s tk res :
  tasks s !! t = Some tk → task_coro tk = Sleeping → must_cancel tk = false →
  remove_on_done tk = true → task_message_id tk ≠ 0 →
  ∃ s', run [Wake t Resume; Wake t (DeleteDone res); DoneCallback t] s = Some s'
        ∧ issued_deletes [Wake t Resume; Wake t (DeleteDone res); DoneCallback t] s
            = [(t, task_message_id tk)]
        ∧ tasks s' !! t = Some (Task (task_message_id tk) (delete_end res) false true)
        ∧ t ∉ recall_tasks s'.
Proof.
  intros Htk Hpos Hmc Hrm Hid.
  assert (_recall_msg (task_message_id tk) (task_coro tk) Resume
            = Some (Deleting, [])) as Hstep.
  { rewrite Hpos. cbn. unfold int_truthy.
    by destruct (Z.eqb_spec (task_message_id tk) 0). }
  pose proof (wake_task_eq t Resume s tk _ _ Htk Hmc Hstep) as Hw.
  rewrite Hrm in Hw. cbn [done task_coro andb] in Hw.
  set (s1 := Loop _ _ _ _) in Hw.
  destruct (finish_from_deleting t s1 (Task (task_message_id tk) Deleting false true) res)
    as (s' & Hrun & Hissued & Hfinal & Hout); [apply lookup_insert_eq | done..|].
  exists s'. cbn [run issued_deletes] in *. rewrite Hw.
  split; [done|]. split; [|by split].
  rewrite Hissued. cbn [issued_delete]. unfold s1 at 1. cbn [tasks].
  by rewrite lookup_insert_eq.
Qed.

Lemma finish_from_start t s tk res :
  tasks s !! t = Some tk → task_coro tk = NotStarted → must_cancel tk = false →
  remove_on_done tk = true → task_message_id tk ≠ 0 →
  ∃ s', run [Wake t Resume; Wake t Resume; Wake t (DeleteDone res); DoneCallback t] s
          = Some s'
        ∧ issued_deletes
            [Wake t Resume; Wake t Resume; Wake t (DeleteDone res); DoneCallback t] s
            = [(t, task_message_id tk)]
        ∧ tasks s' !! t = Some (Task (task_message_id tk) (delete_end res) false true)
        ∧ t ∉ recall_tasks s'.
Proof.
  intros Htk Hpos Hmc Hrm Hid.
  assert (_recall_msg (task_message_id tk) (task_coro tk) Resume
            = Some (Sleeping, [WaitingToRecall (task_message_id tk)])) as Hstep
    by (by rewrite Hpos).
  pose proof (wake_task_eq t Resume s tk _ _ Htk Hmc Hstep) as Hw.
  rewrite Hrm in Hw. cbn [done task_coro andb] in Hw.
  set (s1 := Loop _ _ _ _) in Hw.
  destruct (finish_from_sleeping t s1 (Task (task_message_id tk) Sleeping false true) res)
    as (s' & Hrun & Hissued & Hfinal & Hout); [apply lookup_insert_eq | done..|].
  exists s'. cbn [run issued_deletes] in *. rewrite Hw.
  split; [done|]. split; [|by split].
  rewrite Hissued. cbn [issued_delete]. unfold s1 at 1. cbn [tasks].
  by rewrite lookup_insert_eq.
Qed.

(** X2. From any reachable state, take a recall task that is not done and
    was not cancelled, and let nothing disturb it: the call of its sleep
    suspends it, the sleep elapses, and its delete call comes back, with
    any outcome.  Then the task makes its delete call for its message id
    (unless that call is already under way) and no other, and ends:
    it returns, or, when the call failed with an [ActionFailed] that
    carries no retcode, it ends with the [KeyError] of line 45.  Either way
    its callback takes its handle out of the registry.  In particular the
    guard of line 41 never skips the call of a scheduled task. *)
Theorem recall_runs_to_its_end ls s t tk (res : delete_result) :
  run ls initial = Some s → tasks s !! t = Some tk →
  done tk = false → must_cancel tk = false →
  ∃ s',
    run ((Wake t <$> undisturbed (task_coro tk) res) ++ [DoneCallback t]) s = Some s'
    ∧ issued_deletes
        ((Wake t <$> undisturbed (task_coro tk) res) ++ [DoneCallback t]) s
        = match task_coro tk with
          | Deleting => []
          | _ => [(t, task_message_id tk)]
          end
    ∧ tasks s' !! t
        = Some (Task (task_message_id tk)
                  (if retcode_missing res then Failed KeyError else Returned)
                  false true)
    ∧ t ∉ recall_tasks s'.
Proof.
  intros Hrun Htk Hnd Hmc.
  assert (loop_inv s) as Hinv by (eapply run_inv; [done | apply initial_inv]).
  assert (task_message_id tk ≠ 0) as Hid.
  { eapply (run_ids_nonzero ls initial s Hrun); [|done].
    intros t' tk'. cbn. by rewrite lookup_empty. }
  pose proof (inv_remove_on_done s Hinv t tk Htk) as Hrm.
  unfold done in Hnd. destruct (task_coro tk) eqn:Hpos; try done.
  - destruct (finish_from_start t s tk res) as (s' & H); [done..|]. by exists s'.
  - destruct (finish_from_sleeping t s tk res) as (s' & H); [done..|]. by exists s'.
  - destruct (finish_from_deleting t s tk res) as (s' & H); [done..|]. by exists s'.
Qed.

(** * Reading the count from the command text *)

Lemma take_Forall (P : N → Prop) n (l kw : pystr) :
  Forall P l → take n l = kw → Forall P kw.
Proof. intros Hl <-. by apply Forall_take. Qed.

Lemma last_space_not_kw (kw tl : pystr) :
  opt_truthy isspace (last kw) = false → tl ≠ [] →
  Forall (λ c, isspace c = true) tl → ∀ l, l ++ tl ≠ kw.
Proof.
  intros Hlast Hne Htl l <-. rewrite last_app in Hlast.
  destruct (last tl) as [c|] eqn:Hc.
  - apply last_Some_elem_of in Hc. eapply Forall_forall in Htl; [|done].
    cbn in Hlast. congruence.
  - by apply last_None in Hc.
Qed.

(** White space before the text cannot begin an occurrence of a keyword that
    starts with another character. *)
Lemma after_first_skip_spaces kw ws x :
  Forall (λ c, isspace c = true) ws → kw ≠ [] →
  opt_truthy isspace (head kw) = false →
  after_first kw (ws ++ x) = after_first kw x.
Proof.
  intros Hws Hne Hhead. induction Hws as [|c ws Hc _ IH]; [done|].
  cbn [app after_first]. rewrite bool_decide_false; [done|].
  destruct kw as [|k kw]; [done|]. cbn. intros [= -> _].
  cbn in Hhead. congruence.
Qed.

(** White space after the text cannot end an occurrence of a keyword that
    ends with another character. *)
Lemma after_first_trailing_spaces kw x ws :
  Forall (λ c, isspace c = true) ws → kw ≠ [] →
  opt_truthy isspace (last kw) = false →
  after_first kw (x ++ ws) = (λ r, r ++ ws) <$> after_first kw x.
Proof.
  intros Hws Hne Hlast.
  assert (∀ l, take (length kw) (l ++ ws) = kw ↔ take (length kw) l = kw) as Htake.
  { intros l. rewrite take_app. split.
    - intros Heq. destruct (take (length kw - length l) ws) as [|c tl] eqn:Htl.
      + by rewrite app_nil_r in Heq.
      + exfalso. eapply (last_space_not_kw kw (c :: tl)); [done..| |exact Heq].
        rewrite <- Htl. by apply Forall_take.
    - intros Heq. assert (length kw ≤ length l)%nat as Hle.
      { rewrite <- Heq at 1. rewrite length_take. lia. }
      replace (length kw - length l)%nat with 0%nat by lia.
      by rewrite take_0, app_nil_r. }
  induction x as [|c x IH].
  - cbn [app].
    assert (after_first kw [] = None) as ->.
    { cbn. rewrite take_nil. by rewrite bool_decide_false. }
    cbn [fmap option_fmap option_map].
    clear Htake. induction Hws as [|c ws Hc Hws IH]; cbn [after_first].
    + rewrite take_nil. by rewrite bool_decide_false.
    + rewrite bool_decide_false; [done|]. intros Heq.
      eapply (last_space_not_kw kw kw Hlast Hne); [|by rewrite (app_nil_l kw)].
      eapply take_Forall; [|exact Heq]. by constructor.
  - cbn [after_first]. change ((c :: x) ++ ws) with (c :: x ++ ws).
    cbn [after_first]. change (c :: x ++ ws) with ((c :: x) ++ ws).
    rewrite (bool_decide_ext _ _ (Htake (c :: x))).
    case_bool_decide as Hkw; [|done].
    cbn [fmap option_fmap option_map]. f_equal.
    assert (length kw ≤ length (c :: x))%nat as Hle.
    { rewrite <- Hkw at 1. rewrite length_take. lia. }
    rewrite drop_app. replace (length kw - length (c :: x))%nat with 0%nat by lia.
    done.
Qed.

Lemma command_numbers_unstripped ev :
  (∀ c, isspace c = true → is_decimal c = false) →
  Forall (λ c, isspace c = false) keyword →
  command_numbers ev
  = findall_digits (default (join_plain (get_messages ev))
                      (after_first keyword (join_plain (get_messages ev)))).
Proof.
  intros Hdisjoint Hkw. unfold command_numbers. cbn zeta.
  set (full := join_plain (get_messages ev)).
  destruct (strip_split full) as (before & after & Hs & Hbefore & Hafter & _ & _).
  destruct (findall_digits_spaces after Hdisjoint Hafter) as (Ha & _ & Hahead).
  assert (after_first keyword full
          = (λ r, r ++ after) <$> after_first keyword (strip full)) as Hcut.
  { rewrite Hs at 1.
    rewrite after_first_skip_spaces; [|done|done|].
    - apply after_first_trailing_spaces; [done|done|].
      cbn. by repeat apply Forall_cons in Hkw as [? Hkw].
    - cbn. by apply Forall_cons in Hkw as [? _]. }
  rewrite Hcut. destruct (after_first keyword (strip full)) as [r|]; cbn.
  - rewrite findall_digits_app by (rewrite Hahead; apply andb_false_r).
    by rewrite Ha, app_nil_r.
  - by apply findall_digits_strip.
Qed.

(** X14. Stripping the text (line 209) changes nothing in what the command reads:
    where white space is no digit and the keyword holds no white space, the
    numbers read are those found after the first keyword of the unstripped
    text, or in the whole unstripped text when the keyword is missing. *)
Theorem strip_does_not_change_the_numbers ev :
  (∀ c, isspace c = true → is_decimal c = false) →
  Forall (λ c, isspace c = false) keyword →
  command_numbers ev
  = findall_digits (default (join_plain (get_messages ev))
                      (after_first keyword (join_plain (get_messages ev)))).
Proof. exact (command_numbers_unstripped ev). Qed.

(** X15. The documented forms of the command are understood: when the plain
    text of the message holds the keyword and ends in a number that a
    character other than a digit separates from what comes before, this
    number is the count, whatever stands before the keyword, between the
    keyword and the number, and in the other segments of the message; with
    a positive value the handler goes on to the batch with this count. *)
Theorem documented_command_is_understood conf ev w pre mid digits :
  (∀ c, isspace c = true → is_decimal c = false) →
  Forall (λ c, isspace c = false) keyword →
  Forall (λ c, is_decimal c = false) keyword →
  join_plain (get_messages ev) = pre ++ keyword ++ mid ++ digits →
  opt_truthy is_decimal (last mid) = false →
  digits ≠ [] → Forall (λ c, is_decimal c = true) digits →
  last (command_numbers ev) = Some digits
  ∧ (is_aiocqhttp ev = true → is_group ev = true →
     ∀ count, py_int digits = Some count → 0 < count →
       batch_recall_command conf ev w
       = recall_batch conf ev (find_target (get_messages ev)) count w).
Proof.
  intros Hdisjoint Hkwspace Hkwdigit Hfull Hmid Hne Hdigits.
  assert (last (command_numbers ev) = Some digits) as Hlast.
  { rewrite command_numbers_unstripped by done.
    destruct (after_first_spec keyword (join_plain (get_messages ev)))
      as [Hsome Hnone].
    destruct (after_first keyword (join_plain (get_messages ev))) as [r|] eqn:Hcut.
    - destruct (Hsome r eq_refl) as (p & Heq & Hleft). cbn [default].
      pose proof (Hleft pre (mid ++ digits) Hfull) as Hle.
      rewrite Hfull in Heq.
      assert (∃ x, r = x ++ mid ++ digits ∧ pre ++ keyword = (p ++ keyword) ++ x)
        as (x & -> & Hx).
      { rewrite !(assoc_L (++) _ keyword) in Heq.
        apply app_eq_inv in Heq as [(k & Hk & ->)|(k & Hk & Hr)].
        - exists k. by split.
        - assert (k = []) as ->.
          { apply (f_equal length) in Hk. rewrite !length_app in Hk.
            destruct k; [done|]. cbn in Hk. lia. }
          exists []. cbn in Hr. split; [done|]. by rewrite app_nil_r in *. }
      assert (opt_truthy is_decimal (last (x ++ mid)) = false) as Hsep.
      { rewrite last_app. destruct (last mid) as [c|] eqn:Hc; [done|].
        destruct (last x) as [c|] eqn:Hcx; [|done]. cbn.
        assert (last (pre ++ keyword) = Some c) as Hc'.
        { rewrite Hx, last_app. by rewrite Hcx. }
        rewrite last_app in Hc'.
        destruct (last keyword) as [k|] eqn:Hk; [|done].
        injection Hc' as ->. apply last_Some_elem_of in Hk.
        by eapply Forall_forall in Hkwdigit. }
      rewrite (assoc_L (++) x mid digits). unfold id.
      rewrite findall_digits_app by (by rewrite Hsep).
      rewrite (findall_digits_all_decimal digits) by done.
      by rewrite last_snoc.
    - exfalso. destruct Hnone as [Hnone _].
      by apply (Hnone eq_refl pre (mid ++ digits)). }
  split; [done|]. intros Hplat Hgroup count Hint Hpos.
  unfold batch_recall_command. rewrite Hplat, Hgroup, Hlast, Hint. cbn [negb].
  cbn zeta. by destruct (Z.leb_spec count 0); [lia|].
Qed.

End Plugin.

(** * The properties at the sample inputs *)

Local Abbreviation sample_run c :=
  (batch_recall_command ascii_is_decimal ascii_isspace ascii_int
     sample_get_history sample_delete_msg sample_conf (sample_command c) []).

(** The text a12b345 has the digit runs 12 and 345; the count of a command
    is read after the first keyword. *)
Example findall_digits_runs :
  findall_digits ascii_is_decimal [97; 49; 50; 98; 51; 52; 53]%N
    = [[49; 50]; [51; 52; 53]]%N.
Proof. reflexivity. Qed.

Example after_first_keyword :
  after_first keyword ([120] ++ keyword ++ [32; 53] ++ keyword ++ [55])%N
    = Some ([32; 53] ++ keyword ++ [55])%N.
Proof. reflexivity. Qed.

Example command_without_digits :
  sample_run 120%N = ([Reply NeedCount], []).
Proof. reflexivity. Qed.

(** A private chat is gated by the private flag alone, whatever the
    allow-list. *)
Example private_chat_enabled :
  _should_enable_recall listed_conf (Event true None [55]%N [] None) = true.
Proof. reflexivity. Qed.

(** The two selection scenarios of the specification. *)
Example select_two_newest :
  select_to_recall sample_history None 2 20 = [entry_3; entry_2].
Proof. reflexivity. Qed.

Example select_of_sender_A :
  select_to_recall sample_history (Some sender_A) 5 20 = [entry_3; entry_1].
Proof. reflexivity. Qed.

(** The command with count 2: entry 3 is deleted, deleting entry 2 fails and
    is logged, and one success is reported. *)
Example sample_run_trace :
  sample_run 50%N =
    ([CallHistory 123 60 (HistoryDict (Some sample_history));
      CallDelete 3 DeleteOk;
      CallDelete 2 (DeleteRaised (ActionFailed (Some 1200)));
      LogDeleteError 2;
      Reply (RecalledOfGroup 1)], [3; 2]).
Proof. reflexivity. Qed.

Lemma batch_selection_witness :
  0 < 2 ∧ 0 ≤ 20 ∧
  select_to_recall sample_history None 2 20
    = take (Z.to_nat (spec_clamp 2 20)) [entry_3; entry_2; entry_1].
Proof.
  split; [lia|]. split; [lia|].
  pose proof (batch_selection sample_history None 2 20) as H.
  cbv zeta in H. destruct H as (_ & H & _); [lia | lia |].
  apply H. exact (sort_by_time_desc_spec sample_history).
Defined.

(** With the configured maximum -1 and one message requested, the clamped
    count is -1 and the slice [filtered_messages[:-1]] keeps all entries but
    the last: two entries, where one was requested. *)
Lemma batch_selection_negative_max :
  select_to_recall sample_history None 1 (-1) = [entry_3; entry_2]
  ∧ take (Z.to_nat (spec_clamp 1 (-1)))
      (sort_by_time_desc (spec_filter (target_sender None) sample_history)) = []
  ∧ ¬ (length (select_to_recall sample_history None 1 (-1))
        ≤ Nat.min (Z.to_nat 1)
            (length (spec_filter (target_sender None) sample_history)))%nat.
Proof. split; [reflexivity|]. split; [reflexivity|]. vm_compute. lia. Qed.

Lemma finished_state_reached : run ascii_int finished_steps initial = Some finished_state.
Proof. vm_compute. reflexivity. Qed.

Lemma pending_state_reached : run ascii_int pending_steps initial = Some pending_state.
Proof. vm_compute. reflexivity. Qed.

Lemma registry_invariant_witness :
  run ascii_int finished_steps initial = Some finished_state
  ∧ ∀ t, t ∈ recall_tasks finished_state →
      ∃ tk, tasks finished_state !! t = Some tk
            ∧ (done tk = true → t ∈ callbacks finished_state).
Proof.
  split; [exact finished_state_reached|].
  apply (registry_invariant ascii_int finished_steps finished_state).
  exact finished_state_reached.
Defined.

Lemma dropped_state_reached : run ascii_int dropped_steps initial = Some dropped_state.
Proof. vm_compute. reflexivity. Qed.

(** Two reachable states against the equivalence.  In the first a task has
    completed and its handle is still in the registry: the done-callback is
    queued and has not run yet.  In the second a task has not completed and
    its handle is not in the registry: it was created while [terminate] was
    waiting, and [clear()] dropped it. *)
Lemma completed_task_still_registered :
  (run ascii_int finished_steps initial = Some finished_state
   ∧ 0%nat ∈ recall_tasks finished_state
   ∧ is_done finished_state 0 = true)
  ∧ (run ascii_int dropped_steps initial = Some dropped_state
     ∧ (1%nat ∉ recall_tasks dropped_state)
     ∧ tasks dropped_state !! 1%nat = Some (Task 43 NotStarted false true)
     ∧ is_done dropped_state 1 = false).
Proof.
  split.
  - split; [exact finished_state_reached|]. split; [|reflexivity].
    unfold finished_state. cbn [recall_tasks]. by apply elem_of_singleton.
  - split; [exact dropped_state_reached|]. split; [|split; reflexivity].
    unfold dropped_state. cbn [recall_tasks]. apply not_elem_of_empty.
Qed.

Lemma missing_message_id_witness :
  (sent_message_id (send_outcome (sent_with (Some 0))) = None
   ∨ sent_message_id (send_outcome (sent_with (Some 0))) = Some 0)
  ∧ (intercept_and_recall ascii_int sample_conf sample_reply (sent_with (Some 0))
       pending_state).1.1 = pending_state.
Proof.
  assert (sent_message_id (send_outcome (sent_with (Some 0))) = None
          ∨ sent_message_id (send_outcome (sent_with (Some 0))) = Some 0) as H
    by (right; reflexivity).
  split; [exact H|].
  apply (missing_message_id_schedules_nothing ascii_int sample_conf sample_reply
           (sent_with (Some 0)) pending_state H).
Defined.


(** [terminate] on the two pending tasks: both end cancelled and the
    registry is empty. *)
Example terminate_pending_state :
  terminate ascii_int pending_state =
    Loop {[0%nat := Task 42 Cancelled false true; 1%nat := Task 43 Cancelled false true]}
         ∅ ∅ None.
Proof. vm_compute. reflexivity. Qed.

Lemma terminate_drains_witness :
  run ascii_int pending_steps initial = Some pending_state
  ∧ gathering pending_state = None
  ∧ recall_tasks (terminate ascii_int pending_state) = ∅
  ∧ terminate ascii_int (terminate ascii_int pending_state)
      = terminate ascii_int pending_state.
Proof.
  split; [exact pending_state_reached|]. split; [reflexivity|].
  pose proof (terminate_drains ascii_int pending_steps pending_state
                pending_state_reached eq_refl) as H.
  destruct H as (_ & _ & _ & _ & Hempty & Hagain & _). by split.
Defined.

Lemma batch_deletion_tally_witness :
  reports (sample_run 50%N).1 1
  ∧ 1%nat = succeeded_count (sample_run 50%N).1.
Proof.
  assert (reports (sample_run 50%N).1 1) as Hrep.
  { right. rewrite sample_run_trace. cbn [fst]. repeat constructor. }
  split; [exact Hrep|].
  pose proof (batch_deletion_tally ascii_is_decimal ascii_isspace ascii_int
                sample_get_history sample_delete_msg sample_conf
                (sample_command 50%N) [] [] [] 1%nat) as H.
  cbv zeta in H. destruct H as [_ H].
  destruct (H Hrep) as (digits & count & gid & res & _ & _ & _ & _ & Hn & _).
  exact Hn.
Defined.

Lemma invalid_count_witness :
  (∃ digits count,
     last (command_numbers ascii_is_decimal ascii_isspace (sample_command 48%N))
       = Some digits ∧ ascii_int digits = Some count ∧ count ≤ 0)
  ∧ ∃ rp, sample_run 48%N = ([Reply rp], []) ∧ rp ∈ rejections.
Proof.
  assert (∃ digits count,
     last (command_numbers ascii_is_decimal ascii_isspace (sample_command 48%N))
       = Some digits ∧ ascii_int digits = Some count ∧ count ≤ 0) as Hbad.
  { exists [48%N], 0. repeat split; [reflexivity.. | lia]. }
  split; [exact Hbad|].
  destruct (invalid_count_rejected ascii_is_decimal ascii_isspace ascii_int
              sample_get_history sample_delete_msg sample_conf
              (sample_command 48%N) [] (or_intror Hbad)) as (rp & Heq & Hrp & _).
  by exists rp.
Defined.

Lemma allow_list_gating_witness :
  is_group sample_reply = true
  ∧ default [] (group_whitelist listed_conf) ≠ []
  ∧ (group_id_str sample_reply ∉ default [] (group_whitelist listed_conf))
  ∧ _should_enable_recall listed_conf sample_reply = false.
Proof.
  assert (default [] (group_whitelist listed_conf) ≠ []) as Hne by done.
  assert (group_id_str sample_reply ∉ default [] (group_whitelist listed_conf)) as Hout.
  { cbn. intros H. elem_inv H. }
  split; [reflexivity|]. split; [exact Hne|]. split; [exact Hout|].
  pose proof (allow_list_gating ascii_int listed_conf sample_reply) as H.
  cbv zeta in H. destruct H as [H _]. by destruct (H eq_refl Hne Hout).
Defined.

Lemma history_fetch_count_witness :
  CallHistory 123 60 (HistoryDict (Some sample_history)) ∈ (sample_run 50%N).1
  ∧ 60 = Z.min (configured_max_count sample_conf * 3) 100.
Proof.
  assert (CallHistory 123 60 (HistoryDict (Some sample_history))
            ∈ (sample_run 50%N).1) as Hin.
  { rewrite sample_run_trace. cbn [fst]. constructor. }
  split; [exact Hin|].
  exact (history_fetch_count ascii_is_decimal ascii_isspace ascii_int
           sample_get_history sample_delete_msg sample_conf
           (sample_command 50%N) [] 123 60 _ Hin).
Defined.

Lemma falsy_message_id_witness :
  (message_id entry_without_id = None ∨ message_id entry_without_id = Some 0)
  ∧ recall_loop sample_delete_msg (entry_without_id :: sample_history) 0 []
      = recall_loop sample_delete_msg sample_history 0 [].
Proof.
  assert (message_id entry_without_id = None
          ∨ message_id entry_without_id = Some 0) as H by (left; reflexivity).
  split; [exact H|].
  destruct (falsy_message_id_keeps_slot sample_delete_msg entry_without_id
              sample_history 0%nat [] (λ _, None) sample_history None 2 20)
    as [Hskip _].
  exact (Hskip H).
Defined.

(** The newest entry has no message id and two are requested: the window is
    that entry and entry 3, one delete call is made, and entry 2 is not
    taken in its place. *)
Example window_not_refilled :
  select_to_recall (entry_without_id :: sample_history) None 2 20
    = [entry_without_id; entry_3]
  ∧ (recall_loop sample_delete_msg
       (select_to_recall (entry_without_id :: sample_history) None 2 20) 0 []).1
    = (1%nat, [CallDelete 3 DeleteOk]).
Proof. split; reflexivity. Qed.

(** * The further properties at the sample inputs *)

Lemma ascii_space_not_decimal c :
  ascii_isspace c = true → ascii_is_decimal c = false.
Proof.
  unfold ascii_isspace, ascii_is_decimal.
  rewrite orb_true_iff, !andb_true_iff, andb_false_iff, !N.leb_le, !N.leb_gt. lia.
Qed.

Lemma keyword_no_space : Forall (λ c, ascii_isspace c = false) keyword.
Proof. repeat constructor. Qed.

Lemma keyword_no_digit : Forall (λ c, ascii_is_decimal c = false) keyword.
Proof. repeat constructor. Qed.

Lemma last_number_is_read_witness :
  [49; 50]%N ≠ [] ∧ Forall (λ c, ascii_is_decimal c = true) [49; 50]%N
  ∧ opt_truthy ascii_is_decimal (last (keyword ++ [32]%N)) = false
  ∧ last (findall_digits ascii_is_decimal ((keyword ++ [32]) ++ [49; 50])%N)
      = Some [49; 50]%N.
Proof.
  assert (Forall (λ c, ascii_is_decimal c = true) [49; 50]%N) as Hd
    by (repeat constructor).
  split; [done|]. split; [exact Hd|]. split; [reflexivity|].
  destruct (last_number_is_read ascii_is_decimal (keyword ++ [32]%N) [49; 50]%N)
    as (_ & H & _); [done | exact Hd | reflexivity | exact H].
Defined.

Lemma strip_does_not_change_the_numbers_witness :
  (∀ c, ascii_isspace c = true → ascii_is_decimal c = false)
  ∧ Forall (λ c, ascii_isspace c = false) keyword
  ∧ command_numbers ascii_is_decimal ascii_isspace padded_command
    = findall_digits ascii_is_decimal
        (default (join_plain (get_messages padded_command))
           (after_first keyword (join_plain (get_messages padded_command)))).
Proof.
  split; [exact ascii_space_not_decimal|]. split; [exact keyword_no_space|].
  exact (strip_does_not_change_the_numbers ascii_is_decimal ascii_isspace
           padded_command ascii_space_not_decimal keyword_no_space).
Defined.

Lemma documented_command_is_understood_witness :
  join_plain (get_messages (sample_command 50%N))
    = ([] ++ keyword ++ [32] ++ [50])%N
  ∧ last (command_numbers ascii_is_decimal ascii_isspace (sample_command 50%N))
      = Some [50]%N
  ∧ sample_run 50%N
    = recall_batch ascii_int sample_get_history sample_delete_msg sample_conf
        (sample_command 50%N) None 2 [].
Proof.
  split; [reflexivity|].
  destruct (documented_command_is_understood ascii_is_decimal ascii_isspace
              ascii_int sample_get_history sample_delete_msg sample_conf
              (sample_command 50%N) [] [] [32]%N [50]%N
              ascii_space_not_decimal keyword_no_space keyword_no_digit)
    as [Hlast Hrun]; [reflexivity | reflexivity | done | repeat constructor |].
  split; [exact Hlast|].
  apply Hrun; [reflexivity | reflexivity | reflexivity | lia].
Defined.

Lemma deleted_entry_3 : (3, DeleteOk) ∈ delete_calls (sample_run 50%N).1.
Proof. rewrite sample_run_trace. cbn. constructor. Qed.

Lemma deletes_only_fetched_messages_witness :
  (3, DeleteOk) ∈ delete_calls (sample_run 50%N).1
  ∧ ∃ gid res msg,
      head (sample_run 50%N).1
        = Some (CallHistory gid (fetch_count_for (configured_max_count sample_conf)) res)
      ∧ msg ∈ history_messages_of res ∧ message_id msg = Some 3.
Proof.
  split; [exact deleted_entry_3|].
  destruct (deletes_only_fetched_messages ascii_is_decimal ascii_isspace ascii_int
              sample_get_history sample_delete_msg sample_conf
              (sample_command 50%N) [] 3 DeleteOk deleted_entry_3)
    as (gid & res & msg & Hhead & Hin & Hid & _).
  by exists gid, res, msg.
Defined.

Lemma delete_calls_capped_witness :
  0 ≤ configured_max_count sample_conf
  ∧ (length (delete_calls (sample_run 50%N).1)
       ≤ Z.to_nat (configured_max_count sample_conf))%nat.
Proof.
  assert (0 ≤ configured_max_count sample_conf) as H by (by cbn).
  split; [exact H|].
  exact (proj1 (delete_calls_capped ascii_is_decimal ascii_isspace ascii_int
                  sample_get_history sample_delete_msg sample_conf
                  (sample_command 50%N) [] H)).
Defined.

Lemma deleting_state_reached :
  run ascii_int [Wake 0 Resume] pending_state = Some deleting_state.
Proof. vm_compute. reflexivity. Qed.

Lemma tasks_only_move_forward_witness :
  run ascii_int [Wake 0 Resume] pending_state = Some deleting_state
  ∧ tasks pending_state !! 0%nat = Some (Task 42 Sleeping false true)
  ∧ ∃ tk', tasks deleting_state !! 0%nat = Some tk'
           ∧ task_message_id tk' = 42
           ∧ (1 ≤ coro_rank (task_coro tk'))%nat.
Proof.
  split; [exact deleting_state_reached|]. split; [reflexivity|].
  destruct (tasks_only_move_forward ascii_int [Wake 0 Resume] pending_state
              deleting_state 0%nat (Task 42 Sleeping false true)
              deleting_state_reached eq_refl) as (tk' & Htk & Hid & Hrank & _).
  by exists tk'.
Defined.

Lemma one_delete_call_per_task_witness :
  run ascii_int finished_steps initial = Some finished_state
  ∧ NoDup (issued_deletes ascii_int finished_steps initial).*1.
Proof.
  split; [exact finished_state_reached|].
  exact (proj1 (one_delete_call_per_task ascii_int finished_steps finished_state
                  finished_state_reached)).
Defined.

Lemma recall_runs_to_its_end_witness :
  run ascii_int pending_steps initial = Some pending_state
  ∧ tasks pending_state !! 0%nat = Some (Task 42 Sleeping false true)
  ∧ ∃ s',
      run ascii_int [Wake 0 Resume; Wake 0 (DeleteDone DeleteOk); DoneCallback 0]
        pending_state = Some s'
      ∧ issued_deletes ascii_int
          [Wake 0 Resume; Wake 0 (DeleteDone DeleteOk); DoneCallback 0]
          pending_state = [(0%nat, 42)]
      ∧ tasks s' !! 0%nat = Some (Task 42 Returned false true)
      ∧ (0%nat ∉ recall_tasks s').
Proof.
  split; [exact pending_state_reached|]. split; [reflexivity|].
  exact (recall_runs_to_its_end ascii_int pending_steps pending_state 0%nat
           (Task 42 Sleeping false true) DeleteOk pending_state_reached
           eq_refl eq_refl eq_refl).
Defined.

Lemma draining_state_reached :
  run ascii_int draining_steps initial = Some draining_state.
Proof. vm_compute. reflexivity. Qed.

Lemma teardown_can_always_finish_witness :
  run ascii_int draining_steps initial = Some draining_state
  ∧ gathering draining_state = Some {[0%nat; 1%nat]}
  ∧ ∃ steps s',
      run ascii_int steps draining_state = Some s'
      ∧ gathering s' = None ∧ recall_tasks s' = ∅
      ∧ ∀ t, t ∈ ({[0%nat; 1%nat]} : gset nat) → is_done s' t = true.
Proof.
  split; [exact draining_state_reached|]. split; [reflexivity|].
  exact (teardown_can_always_finish ascii_int draining_steps draining_state
           {[0%nat; 1%nat]} draining_state_reached eq_refl).
Defined.

Lemma first_task_registered : 0%nat ∈ recall_tasks pending_state.
Proof. cbn. set_solver. Qed.

Lemma no_delete_after_teardown_witness :
  run ascii_int pending_steps initial = Some pending_state
  ∧ gathering pending_state = None
  ∧ 0%nat ∈ recall_tasks pending_state
  ∧ (∀ w, wake_task 0 w (terminate ascii_int pending_state) = None)
  ∧ (0%nat ∉ (issued_deletes ascii_int [Wake 0 Resume; Wake 0 Resume]
                (terminate ascii_int pending_state)).*1).
Proof.
  split; [exact pending_state_reached|]. split; [reflexivity|].
  split; [exact first_task_registered|].
  exact (no_delete_after_teardown ascii_int pending_steps pending_state
           [Wake 0 Resume; Wake 0 Resume] 0%nat pending_state_reached eq_refl
           first_task_registered).
Defined.

Lemma finished_steps_without_clear : TerminateClear ∉ finished_steps.
Proof. intros H. unfold finished_steps in H. elem_inv H. Qed.

Lemma registry_is_pending_or_queued_witness :
  run ascii_int finished_steps initial = Some finished_state
  ∧ (TerminateClear ∉ finished_steps)
  ∧ (0%nat ∈ recall_tasks finished_state ↔
       ∃ tk, tasks finished_state !! 0%nat = Some tk
             ∧ (done tk = false ∨ 0%nat ∈ callbacks finished_state)).
Proof.
  split; [exact finished_state_reached|].
  split; [exact finished_steps_without_clear|].
  exact (registry_is_pending_or_queued ascii_int finished_steps finished_state
           0%nat finished_state_reached finished_steps_without_clear).
Defined.

Lemma sorted_input_witness :
  StronglySorted newer_first [entry_3; entry_2; entry_1]
  ∧ sort_by_time_desc [entry_3; entry_2; entry_1] = [entry_3; entry_2; entry_1].
Proof.
  assert (StronglySorted newer_first [entry_3; entry_2; entry_1]) as H.
  { repeat constructor; unfold newer_first; cbn; lia. }
  split; [exact H|].
  destruct (sort_keeps_entries_and_sorted_input [entry_3; entry_2; entry_1])
    as (_ & _ & Hid).
  exact (Hid H).
Defined.

Lemma config_command_witness :
  shown_whitelist (recall_config_command listed_conf) = GroupCount 1
  ∧ is_group sample_reply = true
  ∧ _should_enable_recall listed_conf sample_reply
    = bool_decide (group_id_str sample_reply ∈ default [] (group_whitelist listed_conf))
      && shown_group (recall_config_command listed_conf).
Proof.
  split; [reflexivity|]. split; [reflexivity|].
  pose proof (config_command_shows_the_gate listed_conf sample_reply) as H.
  cbv zeta in H. destruct H as (_ & _ & H).
  destruct (H 1%nat eq_refl) as (_ & _ & Hgate). exact (Hgate eq_refl).
Defined.

Lemma intercept_schedules_witness :
  (intercept_and_recall ascii_int sample_conf sample_reply (sent_with (Some 44))
     pending_state).1.1 ≠ pending_state
  ∧ ∃ sid i,
      intercept_and_recall ascii_int sample_conf sample_reply (sent_with (Some 44))
        pending_state
      = (schedule_recall i pending_state, [ClearChain; SendGroupMsg sid],
         [Intercepted; SentWithId i; RecallScheduled]).
Proof.
  pose proof (intercept_schedules_exactly_when ascii_int sample_conf sample_reply
                (sent_with (Some 44)) pending_state) as H.
  cbv zeta in H. destruct H as [Hiff Hsched].
  assert ((intercept_and_recall ascii_int sample_conf sample_reply
             (sent_with (Some 44)) pending_state).1.1 ≠ pending_state) as Hne.
  { apply Hiff. repeat split; try reflexivity; try done. }
  split; [exact Hne|].
  destruct (Hsched Hne) as (sid & i & _ & _ & _ & Heq). by exists sid, i.
Defined.


(** C7. The command with a count of 4301 digits, on an interpreter whose
    [int] refuses more than 4300: the digit run is found, [int] raises
    [ValueError] on line 219 outside any [try], and the handler ends there,
    with no reply; it has made no client call.  The checks of lines 215-217
    and 220-222 do reply in the other cases of a bad count. *)
Theorem oversized_count_raises :
  last (command_numbers ascii_is_decimal ascii_isspace oversized_command)
    = Some oversized_digits
  ∧ int_with_digit_limit oversized_digits = None
  ∧ batch_recall_command ascii_is_decimal ascii_isspace int_with_digit_limit
      sample_get_history sample_delete_msg sample_conf oversized_command []
    = ([UncaughtValueError], [])
  ∧ replies [UncaughtValueError] = []
  ∧ (∀ rp, Reply rp ∉ [UncaughtValueError]).
Proof.
  split; [vm_compute; reflexivity|]. split; [vm_compute; reflexivity|].
  split; [vm_compute; reflexivity|]. split; [reflexivity|].
  intros rp H. elem_inv H.
Qed.
